(** * UserManagement: a shallow embedding of [test-files/cpp-test.cpp]

    The file models the three classes of the [UserManagement] namespace:
    [User], the template [UserCollection<T>] and [UserManager], together with
    the body of the task that [createUserAsync] hands to [std::async].

    Conventions.
    - [uint64_t] is a [Z] in [0, 2^64); [fetch_add] wraps around, as
      [std::atomic<uint64_t>] does.
    - [std::vector<T>] is a [list T]; an iterator is an index into it and
      [end()] is its length.
    - The mutexes carry no data.  Every member function of [UserCollection]
      holds the collection's lock for its whole body, so each call is one
      atomic transition of the collection; the same holds for [fetch_add].
    - A member function is a computation in a small state monad over the
      object it is called on; [const] member functions are built with
      [reads] only.
    - Tasks run concurrently: a run is a list of events, each the launch of a
      creation or the next atomic action of one task, in any interleaving.
    - The only failures are exceptions from statements that need resources
      (allocation, locking); the surroundings decide for each action of a task
      whether it throws. *)

From Stdlib Require Import String.
From Stdlib Require Import List ZArith Lia Bool Arith Permutation Sorted.
From Stdlib Require Import Floats.
From Stdlib Require Import Ascii DecimalString DecimalN DecimalPos.
Import ListNotations.
Local Open Scope Z_scope.

Set Implicit Arguments.

(** ** A state monad for member functions *)

Definition Op (S A : Type) : Type := S -> A * S.

Definition ret {S A} (a : A) : Op S A := fun s => (a, s).

Definition bind {S A B} (c : Op S A) (k : A -> Op S B) : Op S B :=
  fun s => let (a, s') := c s in k a s'.

Definition reads {S A} (f : S -> A) : Op S A := fun s => (f s, s).

Definition modify {S} (f : S -> S) : Op S unit := fun s => (tt, f s).

Definition result {S A} (c : Op S A) (s : S) : A := fst (c s).
Definition after {S A} (c : Op S A) (s : S) : S := snd (c s).

Declare Scope op_scope.
Delimit Scope op_scope with op.
Notation "x <- c ;; k" := (bind c (fun x => k))
  (at level 61, c at next level, right associativity) : op_scope.
Notation "c ;;; k" := (bind c (fun _ => k))
  (at level 61, right associativity) : op_scope.
Local Open Scope op_scope.

(** ** Enums and the [User] class *)

Inductive UserRole := ADMIN | USER | GUEST.
Inductive UserStatus := ACTIVE | INACTIVE | SUSPENDED.

Definition UserRole_eqb (a b : UserRole) : bool :=
  match a, b with
  | ADMIN, ADMIN | USER, USER | GUEST, GUEST => true
  | _, _ => false
  end.

Definition UserStatus_eqb (a b : UserStatus) : bool :=
  match a, b with
  | ACTIVE, ACTIVE | INACTIVE, INACTIVE | SUSPENDED, SUSPENDED => true
  | _, _ => false
  end.

Definition uint64_modulus : Z := 2 ^ 64.

(** [created_at_] is a reading of the system clock, kept as a tick count. *)
Record User := mkUser {
  id_ : Z;
  name_ : string;
  email_ : string;
  role_ : UserRole;
  status_ : UserStatus;
  created_at_ : Z
}.

(** The four-argument constructor; [now] is what
    [std::chrono::system_clock::now()] returns at that moment. *)
Definition User_new (now : Z) (id : Z) (name email : string) (role : UserRole)
  : User :=
  {| id_ := id; name_ := name; email_ := email; role_ := role;
     status_ := ACTIVE; created_at_ := now |}.

(** Copy constructor. *)
Definition User_copy (other : User) : User :=
  {| id_ := id_ other; name_ := name_ other; email_ := email_ other;
     role_ := role_ other; status_ := status_ other;
     created_at_ := created_at_ other |}.

(** Move constructor: what the new object holds. *)
Definition User_move (other : User) : User :=
  {| id_ := id_ other; name_ := name_ other; email_ := email_ other;
     role_ := role_ other; status_ := status_ other;
     created_at_ := created_at_ other |}.

Definition getId (u : User) : Z := id_ u.
Definition getName (u : User) : string := name_ u.
Definition getEmail (u : User) : string := email_ u.
Definition getRole (u : User) : UserRole := role_ u.
Definition getStatus (u : User) : UserStatus := status_ u.

Definition isActive (u : User) : bool := UserStatus_eqb (status_ u) ACTIVE.

(** ** Element types of the template *)

(** [UserCollection<T>] copies and moves its elements; the template is
    instantiated at types whose copy and move constructors produce an object
    equal to their argument. *)
Class Element (T : Type) := {
  copy : T -> T;
  move : T -> T;
  copy_same : forall x, copy x = x;
  move_same : forall x, move x = x
}.

#[export] Instance User_Element : Element User :=
  {| copy := User_copy;
     move := User_move;
     copy_same := fun u =>
       match u return User_copy u = u with mkUser _ _ _ _ _ _ => eq_refl end;
     move_same := fun u =>
       match u return User_move u = u with mkUser _ _ _ _ _ _ => eq_refl end |}.

(** ** [UserCollection<T>] *)

Section UserCollection.

Context {T : Type} `{Element T}.

(** The only data member that carries state is [users_]. *)
Definition UserCollection : Type := list T.

Definition push_back (v : list T) (x : T) : list T := v ++ [copy x].
Definition emplace_back (v : list T) (x : T) : list T := v ++ [move x].

(** [std::find_if]: the position of the first element satisfying [pred],
    counted from [begin()]; [end()] when there is none. *)
Fixpoint find_if (pred : T -> bool) (v : list T) : nat :=
  match v with
  | [] => O
  | x :: v' => if pred x then O else S (find_if pred v')
  end.

(** [std::copy_if] through a [std::back_inserter] on [out]. *)
Fixpoint copy_if (pred : T -> bool) (v : list T) (out : list T) : list T :=
  match v with
  | [] => out
  | x :: v' => copy_if pred v' (if pred x then push_back out x else out)
  end.

Definition addUser (user : T) : Op UserCollection unit :=
  modify (fun users_ => push_back users_ user).

Definition addUser_rvalue (user : T) : Op UserCollection unit :=
  modify (fun users_ => emplace_back users_ user).

Definition findUser (pred : T -> bool) : Op UserCollection (option T) :=
  reads (fun users_ =>
    let it := find_if pred users_ in
    if negb (Nat.eqb it (length users_))
    then option_map copy (nth_error users_ it)
    else None).

Definition filterUsers (pred : T -> bool) : Op UserCollection (list T) :=
  reads (fun users_ => copy_if pred users_ []).

Definition size : Op UserCollection nat :=
  reads (fun users_ => length users_).

Definition empty : Op UserCollection bool :=
  reads (fun users_ => match users_ with [] => true | _ => false end).

End UserCollection.

Arguments UserCollection T : clear implicits.

(** ** [UserManager] *)

Record UserManager := mkUserManager {
  users_ : UserCollection User;
  next_id_ : Z;
  config_ : list (string * string)
}.

(** The constructor: [next_id_{1}], an empty collection, the given map. *)
Definition UserManager_new (config : list (string * string)) : UserManager :=
  {| users_ := []; next_id_ := 1; config_ := config |}.

(** A call of a member function of the data member [users_]. *)
Definition on_users {A} (c : Op (UserCollection User) A) : Op UserManager A :=
  fun m =>
    let (a, us) := c (users_ m) in
    (a, {| users_ := us; next_id_ := next_id_ m; config_ := config_ m |}).

(** [next_id_.fetch_add(arg)]: yields the value held before, and stores the
    sum reduced modulo 2^64. *)
Definition fetch_add (arg : Z) : Op UserManager Z :=
  fun m =>
    (next_id_ m,
     {| users_ := users_ m;
        next_id_ := (next_id_ m + arg) mod uint64_modulus;
        config_ := config_ m |}).

Definition findUserById (id : Z) : Op UserManager (option User) :=
  on_users (findUser (fun user => getId user =? id)).

Definition getUsersByRole (role : UserRole) : Op UserManager (list User) :=
  on_users (filterUsers (fun user => UserRole_eqb (getRole user) role)).

Definition getActiveUsers : Op UserManager (list User) :=
  on_users (filterUsers (fun user => isActive user)).

Record UserStats := mkUserStats {
  total_users : nat;
  active_users : nat;
  admin_users : nat;
  avg_users_per_day : float
}.

(** [static_cast<double>] of a [size_t]; a vector's size stays below 2^63. *)
Definition double_of_size (n : nat) : float :=
  PrimFloat.of_uint63 (Uint63.of_Z (Z.of_nat n)).

(** [getStatistics] on a store that no task touches while it runs: its four
    reads, [getActiveUsers()], [getUsersByRole(ADMIN)] and [users_.size()]
    twice, one after the other.  [getStatistics_amid] below lets the tasks act
    between the reads. *)
Definition getStatistics : Op UserManager UserStats :=
  active <- getActiveUsers ;;
  admins <- getUsersByRole ADMIN ;;
  total <- on_users size ;;
  total' <- on_users size ;;
  ret {| total_users := total;
         active_users := List.length active;
         admin_users := List.length admins;
         avg_users_per_day := PrimFloat.div (double_of_size total') 30%float |}.

(** ** The task launched by [createUserAsync] *)

(** What the lambda captures by value: [name], [email], [role]. *)
Record request := mkRequest {
  rq_name : string;
  rq_email : string;
  rq_role : UserRole
}.

(** The task between two of its atomic actions.  [Threw id added] is a task
    whose lambda left by an exception after drawing [id]; [added] is the
    record it had already put into [users_], if any. *)
Inductive task :=
| Launched (r : request)
| HasId (r : request) (id : Z)
| Built (user : User)
| Added (user : User)
| Returned (user : User)
| Threw (id : Z) (added : option User).

(** What the surroundings contribute to one action: the clock reading, and
    whether the statement runs out of resources and throws.  [fetch_add]
    neither allocates nor throws. *)
Record env := mkEnv {
  now : Z;
  throws : bool
}.

(** One action of the lambda, in program order: the sleep and [fetch_add],
    then [make_unique<User>], then [users_.addUser( *user )], then the
    printing (which calls [User::toString]) and [return user].  A throwing
    [addUser] leaves the vector as it was ([push_back] has no effect when it
    throws). *)
Definition task_step (e : env) (t : task) : Op UserManager task :=
  match t with
  | Launched r =>
      id <- fetch_add 1 ;;
      ret (HasId r id)
  | HasId r id =>
      if throws e then ret (Threw id None)
      else ret (Built (User_new (now e) id (rq_name r) (rq_email r) (rq_role r)))
  | Built user =>
      if throws e then ret (Threw (id_ user) None)
      else on_users (addUser user) ;;; ret (Added user)
  | Added user =>
      if throws e then ret (Threw (id_ user) (Some user))
      else ret (Returned user)
  | Returned _ | Threw _ _ => ret t
  end.

(** A manager together with the tasks launched on it so far, in launch
    order; a future is the position of its task. *)
Record system := mkSystem {
  manager : UserManager;
  tasks : list task
}.

Definition system_new (config : list (string * string)) : system :=
  {| manager := UserManager_new config; tasks := [] |}.

(** The default argument [role = UserRole::USER]. *)
Definition role_or_default (role : option UserRole) : UserRole :=
  match role with Some r => r | None => USER end.

(** [createUserAsync]: [std::async(std::launch::async, ...)] starts the task
    and hands back its future. *)
Definition createUserAsync (name email : string) (role : option UserRole)
  : Op system nat :=
  fun s =>
    (List.length (tasks s),
     {| manager := manager s;
        tasks := tasks s ++ [Launched (mkRequest name email (role_or_default role))] |}).

Fixpoint set_nth {A} (i : nat) (x : A) (l : list A) : list A :=
  match l, i with
  | [], _ => []
  | _ :: l', O => x :: l'
  | y :: l', S i' => y :: set_nth i' x l'
  end.

(** What can happen next: the caller launches a creation, or the task behind
    future [who] performs its next action. *)
Inductive event :=
| Call (name email : string) (role : option UserRole)
| Run (who : nat) (e : env).

Definition exec (ev : event) (s : system) : system :=
  match ev with
  | Call name email role => after (createUserAsync name email role) s
  | Run who e =>
      match nth_error (tasks s) who with
      | None => s
      | Some t =>
          let (t', m') := task_step e t (manager s) in
          {| manager := m'; tasks := set_nth who t' (tasks s) |}
      end
  end.

Definition run (evs : list event) (s : system) : system :=
  fold_left (fun s ev => exec ev s) evs s.

(** The identifier an event draws from the counter, if it draws one. *)
Definition issues (ev : event) (s : system) : list Z :=
  match ev with
  | Call _ _ _ => []
  | Run who _ =>
      match nth_error (tasks s) who with
      | Some (Launched _) => [result (fetch_add 1) (manager s)]
      | _ => []
      end
  end.

(** All identifiers drawn during a run, in the order they were drawn. *)
Fixpoint issue_log (evs : list event) (s : system) : list Z :=
  match evs with
  | [] => []
  | ev :: evs' => issues ev s ++ issue_log evs' (exec ev s)
  end.

Definition task_id (t : task) : option Z :=
  match t with
  | Launched _ => None
  | HasId _ id => Some id
  | Built u | Added u | Returned u => Some (id_ u)
  | Threw id _ => Some id
  end.

(** The record a task has put into [users_]. *)
Definition added_user (t : task) : option User :=
  match t with
  | Added u | Returned u => Some u
  | Threw _ added => added
  | _ => None
  end.

(** The record a resolved future yields. *)
Definition returned_user (t : task) : option User :=
  match t with
  | Returned u => Some u
  | _ => None
  end.

Definition is_returned (t : task) : bool :=
  match t with Returned _ => true | _ => false end.

Definition is_thrown (t : task) : bool :=
  match t with Threw _ _ => true | _ => false end.

Fixpoint omap {A B} (f : A -> option B) (l : list A) : list B :=
  match l with
  | [] => []
  | x :: l' =>
      match f x with
      | Some y => y :: omap f l'
      | None => omap f l'
      end
  end.

(** The identifiers held by the records of the resolved futures. *)
Definition assigned_ids (s : system) : list Z :=
  map id_ (omap returned_user (tasks s)).

(** The list 1, 2, ..., n. *)
Definition ids_upto (n : nat) : list Z := map Z.of_nat (seq 1 n).

Definition quiet : env := {| now := 0; throws := false |}.

(** One creation carried through on its own: the call, then the four actions
    of the task behind future [k]. *)
Definition one_call (k : nat) (name email : string) (role : option UserRole)
  : list event :=
  [Call name email role; Run k quiet; Run k quiet; Run k quiet; Run k quiet].

(** The demonstration of [main]: five creations, launched together. *)
Definition main_calls : list event :=
  [Call "Alice Johnson" "alice@example.com" (Some ADMIN);
   Call "Bob Smith" "bob@example.com" (Some USER);
   Call "Carol Brown" "carol@example.com" (Some USER);
   Call "David Wilson" "david@example.com" (Some GUEST);
   Call "Eve Davis" "eve@example.com" (Some USER)].

Definition tick (n : Z) : env := {| now := n; throws := false |}.
Definition fault (n : Z) : env := {| now := n; throws := true |}.

(** The five creations of [main] with their tasks interleaved: identifiers
    are drawn in the order 2, 0, 4, 1, 3 of the futures, records are inserted
    in the order 4, 3, 2, 1, 0, and the futures resolve in launch order. *)
Definition main_schedule : list event :=
  main_calls ++
  [Run 2 (tick 10); Run 0 (tick 11); Run 4 (tick 12); Run 1 (tick 13);
   Run 3 (tick 14);
   Run 0 (tick 20); Run 1 (tick 21); Run 2 (tick 22); Run 3 (tick 23);
   Run 4 (tick 24);
   Run 4 (tick 30); Run 3 (tick 31); Run 2 (tick 32); Run 1 (tick 33);
   Run 0 (tick 34);
   Run 0 (tick 40); Run 1 (tick 41); Run 2 (tick 42); Run 3 (tick 43);
   Run 4 (tick 44)].

(** A creation observed after its insertion and before its [return]. *)
Definition inflight_schedule : list event :=
  [Call "Alice" "a@x.com" (Some ADMIN);
   Run 0 (tick 1); Run 0 (tick 2); Run 0 (tick 3)].

(** A creation whose last statement, the printing, throws. *)
Definition late_fault_schedule : list event :=
  [Call "Alice" "a@x.com" (Some ADMIN);
   Run 0 (tick 1); Run 0 (tick 2); Run 0 (tick 3); Run 0 (fault 4)].

(** A creation whose [make_unique] throws. *)
Definition early_fault_schedule : list event :=
  [Call "Alice" "a@x.com" (Some ADMIN); Run 0 (tick 1); Run 0 (fault 2)].

(** The task works for request [r]: what it holds was built from [r]. *)
Definition serves (r : request) (t : task) : Prop :=
  match t with
  | Launched r' | HasId r' _ => r' = r
  | Built u | Added u | Returned u =>
      name_ u = rq_name r /\ email_ u = rq_email r /\
      role_ u = rq_role r /\ status_ u = ACTIVE
  | Threw _ _ => True
  end.

(** The surroundings of the actions that the task behind future [i] gets in a
    run, in order. *)
Fixpoint actions_of (i : nat) (evs : list event) : list env :=
  match evs with
  | [] => []
  | Call _ _ _ :: evs' => actions_of i evs'
  | Run who e :: evs' =>
      if Nat.eqb who i then e :: actions_of i evs' else actions_of i evs'
  end.

(** The actions a task still has to perform before its future resolves. *)
Definition steps_left (t : task) : nat :=
  match t with
  | Launched _ => 4
  | HasId _ _ => 3
  | Built _ => 2
  | Added _ => 1
  | Returned _ | Threw _ _ => 0
  end.

(** The task behind future [i] gets its four actions in the run, and none of
    them throws. *)
Definition completes (i : nat) (evs : list event) : bool :=
  let es := actions_of i evs in
  Nat.leb 4 (List.length es) && forallb (fun e => negb (throws e)) (firstn 4 es).

(** [c] called [n] times in a row, the results collected in order. *)
Fixpoint repeat_op {S A} (n : nat) (c : Op S A) : Op S (list A) :=
  match n with
  | O => ret []
  | S n' => a <- c ;; l <- repeat_op n' c ;; ret (a :: l)
  end.

(** ** Further notions used in the statements *)

(** What a task holds agrees with how [task_step] produces it: a record built
    by the constructor is [ACTIVE], and a task that threw after its insertion
    had inserted a record carrying the identifier it drew. *)
Definition task_ok (t : task) : Prop :=
  match t with
  | Launched _ | HasId _ _ => True
  | Built u | Added u | Returned u => status_ u = ACTIVE
  | Threw id None => True
  | Threw id (Some u) => id_ u = id /\ status_ u = ACTIVE
  end.

(** The requests of the creations launched in a run, in launch order. *)
Fixpoint calls_of (evs : list event) : list request :=
  match evs with
  | [] => []
  | Call name email role :: evs' =>
      mkRequest name email (role_or_default role) :: calls_of evs'
  | Run _ _ :: evs' => calls_of evs'
  end.

(** What a record keeps of the request it was built from. *)
Definition request_of_user (u : User) : request :=
  mkRequest (name_ u) (email_ u) (role_ u).

(** [User::operator==] and [User::operator<]: both look at [id_] only. *)
Definition operator_eq (this other : User) : bool := id_ this =? id_ other.
Definition operator_lt (this other : User) : bool := id_ this <? id_ other.

(** A creation whose construction throws, followed by one that completes. *)
Definition gap_schedule : list event :=
  [Call "Alice" "a@x.com" (Some ADMIN); Run 0 (tick 1); Run 0 (fault 2);
   Call "Bob" "b@x.com" None;
   Run 1 (tick 3); Run 1 (tick 4); Run 1 (tick 5); Run 1 (tick 6)].

(** The configuration map that [main] builds, by ascending key. *)
Definition main_config : list (string * string) :=
  [("debug", "true"); ("max_connections", "100"); ("timeout", "30")]%string.


(** ** The remaining members of [User] *)

(** [std::to_string] at an unsigned value: its decimal digits, ["0"] for
    zero. *)
Definition to_string (z : Z) : string :=
  NilZero.string_of_uint (N.to_uint (Z.to_N z)).

(** [static_cast<int>(role_)]: the enumerators count from 0. *)
Definition role_to_int (role : UserRole) : Z :=
  match role with
  | ADMIN => 0
  | USER => 1
  | GUEST => 2
  end.

(** [User::toString]; [operator+] associates to the left. *)
Definition toString (u : User) : string :=
  ((((((("User{id=" ++ to_string (id_ u)) ++ ", name='") ++ name_ u)
       ++ "', email='") ++ email_ u) ++ "', role=")
     ++ to_string (role_to_int (role_ u))) ++ "}".

(** [operator<<] on a stream whose content so far is [os]. *)
Definition operator_shl (os : string) (user : User) : string :=
  os ++ toString user.

Definition setName (name : string) : Op User unit :=
  modify (fun u =>
    {| id_ := id_ u; name_ := name; email_ := email_ u; role_ := role_ u;
       status_ := status_ u; created_at_ := created_at_ u |}).

Definition setEmail (email : string) : Op User unit :=
  modify (fun u =>
    {| id_ := id_ u; name_ := name_ u; email_ := email; role_ := role_ u;
       status_ := status_ u; created_at_ := created_at_ u |}).

Definition setStatus (status : UserStatus) : Op User unit :=
  modify (fun u =>
    {| id_ := id_ u; name_ := name_ u; email_ := email_ u; role_ := role_ u;
       status_ := status; created_at_ := created_at_ u |}).

(** A call of one of the three setters, and calls one after the other. *)
Inductive setter :=
| SetName (name : string)
| SetEmail (email : string)
| SetStatus (status : UserStatus).

Definition call_setter (c : setter) : Op User unit :=
  match c with
  | SetName name => setName name
  | SetEmail email => setEmail email
  | SetStatus status => setStatus status
  end.

Fixpoint call_setters (cs : list setter) : Op User unit :=
  match cs with
  | [] => ret tt
  | c :: cs' => call_setter c ;;; call_setters cs'
  end.

(** The argument of the last call of each setter in [cs], [d] when there is
    none. *)
Fixpoint last_name (cs : list setter) (d : string) : string :=
  match cs with
  | [] => d
  | SetName name :: cs' => last_name cs' name
  | _ :: cs' => last_name cs' d
  end.

Fixpoint last_email (cs : list setter) (d : string) : string :=
  match cs with
  | [] => d
  | SetEmail email :: cs' => last_email cs' email
  | _ :: cs' => last_email cs' d
  end.

Fixpoint last_status (cs : list setter) (d : UserStatus) : UserStatus :=
  match cs with
  | [] => d
  | SetStatus status :: cs' => last_status cs' status
  | _ :: cs' => last_status cs' d
  end.

Definition is_digit (c : ascii) : bool :=
  Nat.leb 48 (nat_of_ascii c) && Nat.leb (nat_of_ascii c) 57.

Fixpoint all_digits (s : string) : bool :=
  match s with
  | EmptyString => true
  | String c s' => is_digit c && all_digits s'
  end.

(** What is asked for in a creation: name, email, and the role if given. *)
Definition asked : Type := (string * string * option UserRole)%type.

Definition request_of_asked (a : asked) : request :=
  let '(name, email, role) := a in mkRequest name email (role_or_default role).

(** Creations made one after the other, each carried through before the next
    is launched; the first one behind future [k]. *)
Fixpoint sequential (k : nat) (reqs : list asked) : list event :=
  match reqs with
  | [] => []
  | (name, email, role) :: reqs' =>
      one_call k name email role ++ sequential (S k) reqs'
  end.

(** The records such creations build when the counter stands at [c]. *)
Fixpoint records_from (c : Z) (reqs : list asked) : list User :=
  match reqs with
  | [] => []
  | (name, email, role) :: reqs' =>
      User_new 0 c name email (role_or_default role)
      :: records_from ((c + 1) mod uint64_modulus) reqs'
  end.

(** [constexpr int MAX_USERS = 1000]. *)
Definition MAX_USERS : Z := 1000.

(** ** [getStatistics] while creations proceed *)

(** A call of a member function of the manager by the thread that owns it. *)
Definition on_manager {A} (c : Op UserManager A) : Op system A :=
  fun s =>
    let (a, m) := c (manager s) in
    (a, {| manager := m; tasks := tasks s |}).

(** What the tasks do in the meantime. *)
Definition proceed (evs : list event) : Op system unit := modify (run evs).

(** [getStatistics] as the source runs it.  [getActiveUsers()],
    [getUsersByRole(ADMIN)] and the two calls of [users_.size()] in the
    initializer each take and release the collection's lock, so the tasks may
    act in between: [evs1] after the first read, [evs2] after the second,
    [evs3] between the two calls of [size()]. *)
Definition getStatistics_amid (evs1 evs2 evs3 : list event)
  : Op system UserStats :=
  active <- on_manager getActiveUsers ;;
  proceed evs1 ;;;
  admins <- on_manager (getUsersByRole ADMIN) ;;
  proceed evs2 ;;;
  total <- on_manager (on_users size) ;;
  proceed evs3 ;;;
  total' <- on_manager (on_users size) ;;
  ret {| total_users := total;
         active_users := List.length active;
         admin_users := List.length admins;
         avg_users_per_day := PrimFloat.div (double_of_size total') 30%float |}.

(** A creation that has built its record and not yet inserted it. *)
Definition built_schedule : list event :=
  [Call "Alice" "a@x.com" (Some ADMIN); Run 0 (tick 1); Run 0 (tick 2)].

(** * Properties *)

(** ** The collection *)

Section CollectionFacts.

Context {T : Type} `{Element T}.

Implicit Types (pred : T -> bool) (v out : list T) (x user : T).

Lemma copy_if_filter pred v out :
  copy_if pred v out = out ++ filter pred v.
Proof.
  revert out; induction v as [|x v IH]; intros out; simpl.
  - now rewrite app_nil_r.
  - rewrite IH. destruct (pred x); [|reflexivity].
    unfold push_back. now rewrite copy_same, <- app_assoc.
Qed.

Lemma find_if_bound pred v : (find_if pred v <= List.length v)%nat.
Proof.
  induction v as [|x v IH]; simpl; [lia|].
  destruct (pred x); lia.
Qed.

Lemma find_if_deref pred v :
  (if negb (Nat.eqb (find_if pred v) (List.length v))
   then option_map copy (nth_error v (find_if pred v))
   else None) = find pred v.
Proof.
  induction v as [|x v IH]; simpl; [reflexivity|].
  destruct (pred x); simpl.
  - now rewrite copy_same.
  - exact IH.
Qed.

Lemma findUser_find pred v : result (findUser pred) v = find pred v.
Proof. unfold result, findUser, reads; simpl. apply find_if_deref. Qed.

Lemma filterUsers_filter pred v : result (filterUsers pred) v = filter pred v.
Proof. unfold result, filterUsers, reads; simpl. apply copy_if_filter. Qed.

Lemma find_first_split pred v x :
  find pred v = Some x ->
  exists before rest,
    v = before ++ x :: rest /\ pred x = true /\
    Forall (fun y => pred y = false) before.
Proof.
  induction v as [|y v IH]; simpl; [discriminate|].
  destruct (pred y) eqn:Hy.
  - intros [= ->]. exists [], v. auto.
  - intros Hf. destruct (IH Hf) as (b & r & -> & Hx & Hb).
    exists (y :: b), r. auto.
Qed.

Lemma find_none_all pred v :
  find pred v = None -> Forall (fun y => pred y = false) v.
Proof.
  induction v as [|y v IH]; simpl; [constructor|].
  destruct (pred y) eqn:Hy; [discriminate|]. auto.
Qed.

Lemma find_hd_filter pred v : find pred v = hd_error (filter pred v).
Proof.
  induction v as [|y v IH]; simpl; [reflexivity|].
  destruct (pred y); [reflexivity | exact IH].
Qed.

(** C4. [filterUsers pred] yields exactly the stored elements that satisfy
    [pred], each as a copy equal to the stored one, in the order in which they
    stand in [users_] (the order of insertion); the collection stays as it
    was. *)
Theorem filterUsers_exact pred (users_ : UserCollection T) :
  result (filterUsers pred) users_ = filter pred users_ /\
  result (filterUsers pred) users_ = map copy (filter pred users_) /\
  after (filterUsers pred) users_ = users_.
Proof.
  rewrite filterUsers_filter. repeat split.
  rewrite <- (map_id (filter pred users_)) at 1.
  apply map_ext. intros; now rewrite copy_same.
Qed.

(** C5. [findUser pred] scans [users_] from the front: when it yields [x],
    then [x] stands in [users_] behind a prefix none of whose elements
    satisfies [pred], and [x] satisfies it; when it yields nothing, no element
    satisfies [pred]. The collection stays as it was. *)
Theorem findUser_first_match pred (users_ : UserCollection T) :
  after (findUser pred) users_ = users_ /\
  match result (findUser pred) users_ with
  | Some x =>
      exists before rest,
        users_ = before ++ x :: rest /\ pred x = true /\
        Forall (fun y => pred y = false) before
  | None => Forall (fun y => pred y = false) users_
  end.
Proof.
  split; [reflexivity|].
  rewrite findUser_find.
  destruct (find pred users_) as [x|] eqn:Hf.
  - now apply find_first_split.
  - now apply find_none_all.
Qed.

(** C6. Both overloads of [addUser] return normally, and leave [users_] as
    the former sequence with the given element appended: one element longer,
    every former position holding what it held. *)
Theorem addUser_appends user (users_ : UserCollection T) :
  addUser user users_ = (tt, users_ ++ [user]) /\
  addUser_rvalue user users_ = (tt, users_ ++ [user]) /\
  List.length (after (addUser user) users_) = S (List.length users_) /\
  (forall i, (i < List.length users_)%nat ->
     nth_error (after (addUser user) users_) i = nth_error users_ i) /\
  nth_error (after (addUser user) users_) (List.length users_) = Some user.
Proof.
  unfold addUser, addUser_rvalue, modify, after, push_back, emplace_back; simpl.
  rewrite copy_same, move_same. repeat split.
  - rewrite length_app; simpl; lia.
  - intros i Hi. now apply nth_error_app1.
  - rewrite nth_error_app2, Nat.sub_diag; [reflexivity | lia].
Qed.

(** C10. [findUser] and [filterUsers] agree: [findUser pred] yields the first
    element of what [filterUsers pred] yields, and yields nothing exactly when
    [filterUsers pred] yields the empty sequence. *)
Theorem findUser_head_of_filterUsers pred (users_ : UserCollection T) :
  result (findUser pred) users_ = hd_error (result (filterUsers pred) users_) /\
  (result (findUser pred) users_ = None <->
   result (filterUsers pred) users_ = []).
Proof.
  rewrite findUser_find, filterUsers_filter, find_hd_filter.
  split; [reflexivity|].
  destruct (filter pred users_); simpl; split; congruence.
Qed.

End CollectionFacts.

(** ** The manager's queries *)

Lemma UserStatus_eqb_eq (a b : UserStatus) : UserStatus_eqb a b = true <-> a = b.
Proof. destruct a, b; simpl; split; congruence. Qed.

Lemma UserRole_eqb_eq (a b : UserRole) : UserRole_eqb a b = true <-> a = b.
Proof. destruct a, b; simpl; split; congruence. Qed.

Lemma on_users_reads {A} (f : UserCollection User -> A) (m : UserManager) :
  on_users (reads f) m = (f (users_ m), m).
Proof. destruct m; reflexivity. Qed.

Lemma repeat_op_pure {S A} (c : Op S A) (f : S -> A) (n : nat) (s : S) :
  (forall s', c s' = (f s', s')) ->
  repeat_op n c s = (repeat (f s) n, s).
Proof.
  intros Hc. induction n as [|n IH]; simpl; [reflexivity|].
  unfold bind. now rewrite Hc, IH.
Qed.

Lemma findUserById_find (id : Z) (m : UserManager) :
  findUserById id m = (find (fun user => id_ user =? id) (users_ m), m).
Proof.
  unfold findUserById, findUser. rewrite on_users_reads.
  f_equal. apply find_if_deref.
Qed.

Lemma getUsersByRole_filter (role : UserRole) (m : UserManager) :
  getUsersByRole role m =
  (filter (fun user => UserRole_eqb (role_ user) role) (users_ m), m).
Proof.
  unfold getUsersByRole, filterUsers. rewrite on_users_reads.
  now rewrite copy_if_filter.
Qed.

Lemma getActiveUsers_filter (m : UserManager) :
  getActiveUsers m = (filter isActive (users_ m), m).
Proof.
  unfold getActiveUsers, filterUsers. rewrite on_users_reads.
  now rewrite copy_if_filter.
Qed.

Lemma findUserById_some (id : Z) (m : UserManager) (u : User) :
  result (findUserById id) m = Some u -> In u (users_ m) /\ id_ u = id.
Proof.
  unfold result. rewrite findUserById_find. simpl. intros Hf.
  apply find_some in Hf. destruct Hf as [Hin Hid].
  split; [exact Hin | now apply Z.eqb_eq].
Qed.

Lemma findUserById_finds (m : UserManager) (u : User) :
  In u (users_ m) ->
  exists v, result (findUserById (id_ u)) m = Some v /\ id_ v = id_ u.
Proof.
  intros Hin. unfold result. rewrite findUserById_find. simpl.
  destruct (find (fun user => id_ user =? id_ u) (users_ m)) as [v|] eqn:Hf.
  - exists v. split; [reflexivity|].
    apply find_some in Hf. now apply Z.eqb_eq.
  - exfalso. apply (find_none _ _ Hf) in Hin. simpl in Hin.
    now rewrite Z.eqb_refl in Hin.
Qed.

(** The scenario of two creations, an administrator and a plain user. *)
Example statistics_scenario :
  let s := run (one_call 0 "Alice" "a@x.com" (Some ADMIN) ++
                one_call 1 "Bob" "b@x.com" (Some USER)) (system_new []) in
  result getStatistics (manager s) =
    {| total_users := 2; active_users := 2; admin_users := 1;
       avg_users_per_day := PrimFloat.div 2%float 30%float |} /\
  map name_ (result (getUsersByRole ADMIN) (manager s)) = ["Alice"%string] /\
  result (findUserById 999) (manager (system_new [])) = None.
Proof. vm_compute. repeat split. Qed.

(** C9. Calling [findUserById id] any number of times in a row on a manager,
    or [filterUsers pred] any number of times in a row on a collection, yields
    the same result every time and leaves the object as it was. *)
Theorem queries_repeatable (n : nat) (id : Z) (m : UserManager)
    (T : Type) (E : Element T) (pred : T -> bool) (c : UserCollection T) :
  repeat_op n (findUserById id) m = (repeat (result (findUserById id) m) n, m) /\
  repeat_op n (filterUsers pred) c = (repeat (result (filterUsers pred) c) n, c).
Proof.
  split.
  - unfold result. rewrite findUserById_find. simpl.
    apply (repeat_op_pure (findUserById id)
             (fun m' => find (fun user => id_ user =? id) (users_ m'))).
    intros m'. apply findUserById_find.
  - apply (repeat_op_pure (filterUsers pred) (fun c' => copy_if pred c' [])).
    reflexivity.
Qed.

(** ** Lists updated at a position *)

Section ListFacts.

Context {A B : Type}.

Implicit Types (l : list A) (f : A -> option B).

Lemma length_set_nth i (x : A) l : List.length (set_nth i x l) = List.length l.
Proof.
  revert i; induction l as [|y l IH]; intros [|i]; simpl; auto.
Qed.

Lemma nth_error_set_nth_eq i (x y : A) l :
  nth_error l i = Some y -> nth_error (set_nth i x l) i = Some x.
Proof.
  revert i; induction l as [|z l IH]; intros [|i]; simpl; try discriminate; auto.
Qed.

Lemma nth_error_set_nth_neq i j (x : A) l :
  i <> j -> nth_error (set_nth i x l) j = nth_error l j.
Proof.
  revert i j; induction l as [|z l IH]; intros [|i] [|j] Hij; simpl; auto.
  congruence.
Qed.

Lemma nth_error_snoc l (x : A) : nth_error (l ++ [x]) (List.length l) = Some x.
Proof. rewrite nth_error_app2, Nat.sub_diag; [reflexivity | lia]. Qed.

Lemma set_nth_snoc l (x y : A) : set_nth (List.length l) y (l ++ [x]) = l ++ [y].
Proof. induction l as [|z l IH]; simpl; [reflexivity | now rewrite IH]. Qed.

Lemma omap_app f l l' : omap f (l ++ l') = omap f l ++ omap f l'.
Proof.
  induction l as [|x l IH]; simpl; [reflexivity|].
  destruct (f x); simpl; now rewrite IH.
Qed.

Lemma omap_set_nth_same f i (t t' : A) l :
  nth_error l i = Some t -> f t' = f t ->
  omap f (set_nth i t' l) = omap f l.
Proof.
  revert i; induction l as [|z l IH]; intros [|i]; simpl; try discriminate.
  - intros [= ->] ->. reflexivity.
  - intros Hn Hf. now rewrite (IH i Hn Hf).
Qed.

Lemma omap_set_nth_new f i (t t' : A) (y : B) l :
  nth_error l i = Some t -> f t = None -> f t' = Some y ->
  Permutation (omap f (set_nth i t' l)) (omap f l ++ [y]).
Proof.
  revert i; induction l as [|z l IH]; intros [|i]; simpl; try discriminate.
  - intros [= ->] -> ->. apply Permutation_cons_append.
  - intros Hn Hf Hf'. destruct (f z); simpl.
    + apply perm_skip. now apply IH.
    + now apply IH.
Qed.

Lemma omap_in f l (y : B) :
  In y (omap f l) <-> exists x, In x l /\ f x = Some y.
Proof.
  induction l as [|x l IH]; simpl.
  - split; [tauto | intros (x & [] & _)].
  - destruct (f x) as [z|] eqn:Hx; simpl; rewrite IH; split.
    + intros [<- | (x' & Hin & Hf)]; [exists x | exists x']; auto.
    + intros (x' & [<- | Hin] & Hf); [left; congruence | right; eauto].
    + intros (x' & Hin & Hf); eauto.
    + intros (x' & [<- | Hin] & Hf); [congruence | eauto].
Qed.

End ListFacts.

(** ** Single events *)

Lemma run_app (evs evs' : list event) (s : system) :
  run (evs ++ evs') s = run evs' (run evs s).
Proof. apply fold_left_app. Qed.

Lemma run_cons (ev : event) (evs : list event) (s : system) :
  run (ev :: evs) s = run evs (exec ev s).
Proof. reflexivity. Qed.

Lemma exec_Run who e (s : system) (t : task) :
  nth_error (tasks s) who = Some t ->
  exec (Run who e) s =
  {| manager := after (task_step e t) (manager s);
     tasks := set_nth who (result (task_step e t) (manager s)) (tasks s) |}.
Proof.
  intros Hn. unfold exec, after, result. rewrite Hn.
  now destruct (task_step e t (manager s)).
Qed.

Lemma exec_Run_none who e (s : system) :
  nth_error (tasks s) who = None -> exec (Run who e) s = s.
Proof. intros Hn. unfold exec. now rewrite Hn. Qed.

Lemma User_copy_same (u : User) : User_copy u = u.
Proof. exact (copy_same u). Qed.

(** The effect of one action on the manager and on the task, by cases on
    where the task stands. *)
Ltac step_cases e t m :=
  destruct t as [r|r id|u|u|u|id added];
  unfold task_step, bind, ret, fetch_add, on_users, addUser, modify,
    push_back, after, result;
  try destruct (throws e) eqn:?; simpl.

Lemma task_step_users e t m :
  (users_ (after (task_step e t) m) = users_ m /\
   added_user (result (task_step e t) m) = added_user t) \/
  (exists u, t = Built u /\ result (task_step e t) m = Added u /\
             throws e = false /\
             users_ (after (task_step e t) m) = users_ m ++ [u]).
Proof.
  step_cases e t m; auto.
  right. exists u. rewrite User_copy_same. auto.
Qed.

Lemma task_step_throws e t m :
  throws e = true -> users_ (after (task_step e t) m) = users_ m.
Proof.
  intros Ht. step_cases e t m; auto; congruence.
Qed.

Lemma task_step_counter e t m :
  (exists r, t = Launched r /\
             result (task_step e t) m = HasId r (next_id_ m) /\
             next_id_ (after (task_step e t) m) =
               (next_id_ m + 1) mod uint64_modulus) \/
  (task_id t <> None /\
   task_id (result (task_step e t) m) = task_id t /\
   next_id_ (after (task_step e t) m) = next_id_ m).
Proof.
  step_cases e t m; try (right; repeat split; congruence);
    left; exists r; auto.
Qed.

Lemma exec_store (ev : event) (s : system) :
  exists new,
    users_ (manager (exec ev s)) = users_ (manager s) ++ new /\
    Permutation (omap added_user (tasks (exec ev s)))
                (omap added_user (tasks s) ++ new) /\
    (new = [] \/ exists u, new = [u]).
Proof.
  destruct ev as [name email role | who e].
  - exists []. simpl. rewrite omap_app. simpl. rewrite !app_nil_r. auto.
  - destruct (nth_error (tasks s) who) as [t|] eqn:Hn.
    + rewrite exec_Run with (t := t) by exact Hn. simpl.
      destruct (task_step_users e t (manager s))
        as [[Hu Ha] | (u & -> & Ht & _ & Hu)].
      * exists []. rewrite Hu, omap_set_nth_same with (t := t) by assumption.
        rewrite !app_nil_r. auto.
      * exists [u]. rewrite Hu, Ht. repeat split; eauto.
        now apply omap_set_nth_new with (t := Built u).
    + rewrite exec_Run_none by exact Hn. exists []. rewrite !app_nil_r. auto.
Qed.

Lemma run_store (evs : list event) (s : system) :
  exists new,
    users_ (manager (run evs s)) = users_ (manager s) ++ new /\
    Permutation (omap added_user (tasks (run evs s)))
                (omap added_user (tasks s) ++ new).
Proof.
  revert s; induction evs as [|ev evs IH]; intros s.
  - exists []. simpl. rewrite !app_nil_r. auto.
  - rewrite run_cons.
    destruct (exec_store ev s) as (new1 & Hu1 & Hp1 & _).
    destruct (IH (exec ev s)) as (new2 & Hu2 & Hp2).
    exists (new1 ++ new2). rewrite Hu2, Hu1, <- app_assoc. split; [reflexivity|].
    rewrite Hp2, Hp1, <- app_assoc. reflexivity.
Qed.

Lemma exec_ids (ev : event) (s : system) :
  Permutation (omap task_id (tasks (exec ev s)))
              (omap task_id (tasks s) ++ issues ev s) /\
  ((issues ev s = [] /\
    next_id_ (manager (exec ev s)) = next_id_ (manager s)) \/
   (issues ev s = [next_id_ (manager s)] /\
    next_id_ (manager (exec ev s)) =
      (next_id_ (manager s) + 1) mod uint64_modulus)).
Proof.
  destruct ev as [name email role | who e].
  - simpl. rewrite omap_app. simpl. rewrite !app_nil_r. auto.
  - unfold issues.
    destruct (nth_error (tasks s) who) as [t|] eqn:Hn.
    + rewrite exec_Run with (t := t) by exact Hn. simpl.
      destruct (task_step_counter e t (manager s))
        as [(r & -> & Ht & Hc) | (Hid & Ht & Hc)].
      * rewrite Ht, Hc. split; [|right; auto].
        now apply omap_set_nth_new with (t := Launched r).
      * rewrite Hc, omap_set_nth_same with (t := t) by assumption.
        destruct t; simpl in Hid; try congruence; simpl; rewrite app_nil_r; auto.
    + rewrite exec_Run_none by exact Hn. rewrite app_nil_r. auto.
Qed.

Lemma run_ids (evs : list event) (s : system) :
  Permutation (omap task_id (tasks (run evs s)))
              (omap task_id (tasks s) ++ issue_log evs s).
Proof.
  revert s; induction evs as [|ev evs IH]; intros s.
  - simpl. now rewrite app_nil_r.
  - rewrite run_cons. simpl.
    rewrite IH. destruct (exec_ids ev s) as [Hp _].
    now rewrite Hp, <- app_assoc.
Qed.

(** The counter hands out consecutive values, modulo 2^64. *)
Lemma issue_log_consecutive (evs : list event) (s : system) :
  0 <= next_id_ (manager s) < uint64_modulus ->
  issue_log evs s =
  map (fun j => (next_id_ (manager s) + Z.of_nat j) mod uint64_modulus)
      (seq 0 (List.length (issue_log evs s))).
Proof.
  revert s; induction evs as [|ev evs IH]; intros s Hc; [reflexivity|].
  simpl issue_log.
  assert (HM : 0 < uint64_modulus) by (unfold uint64_modulus; lia).
  destruct (exec_ids ev s) as [_ [[-> Hn] | [-> Hn]]]; simpl app.
  - rewrite <- Hn. apply IH. now rewrite Hn.
  - simpl List.length. simpl seq. simpl map.
    rewrite Z.add_0_r, Z.mod_small by exact Hc. f_equal.
    rewrite <- seq_shift, map_map. rewrite IH at 1.
    + apply map_ext. intros j. rewrite Hn.
      rewrite Z.add_mod_idemp_l by lia. f_equal. lia.
    + rewrite Hn. apply Z.mod_pos_bound. exact HM.
Qed.

Lemma omap_task_id_returned (l : list task) :
  forallb is_returned l = true ->
  omap task_id l = map id_ (omap returned_user l) /\
  List.length (omap returned_user l) = List.length l.
Proof.
  induction l as [|t l IH]; simpl; [auto|].
  destruct t; simpl; try discriminate.
  intros Hl. destruct (IH Hl) as [-> ->]. auto.
Qed.

Lemma ids_upto_shift (n : nat) :
  ids_upto n = map (fun j => 1 + Z.of_nat j) (seq 0 n).
Proof.
  unfold ids_upto. rewrite <- seq_shift, map_map.
  apply map_ext. intros j. lia.
Qed.

Lemma ids_upto_in (n : nat) (z : Z) :
  In z (ids_upto n) <-> 1 <= z <= Z.of_nat n.
Proof.
  unfold ids_upto. rewrite in_map_iff. split.
  - intros (j & <- & Hj). apply in_seq in Hj. lia.
  - intros Hz. exists (Z.to_nat z). split; [lia|]. apply in_seq. lia.
Qed.

Lemma ids_upto_NoDup (n : nat) : NoDup (ids_upto n).
Proof.
  unfold ids_upto. apply Finite.Injective_map_NoDup; [|apply seq_NoDup].
  intros a b Hab. lia.
Qed.

Lemma ids_upto_sorted (n : nat) : StronglySorted Z.lt (ids_upto n).
Proof.
  unfold ids_upto. generalize 1%nat as k.
  induction n as [|n IH]; intros k; simpl; constructor; [apply IH|].
  apply Forall_forall. intros z Hz.
  apply in_map_iff in Hz. destruct Hz as (j & <- & Hj).
  apply in_seq in Hj. lia.
Qed.

(** ** Identifiers *)

Lemma assigned_ids_log (config : list (string * string)) (evs : list event) :
  forallb is_returned (tasks (run evs (system_new config))) = true ->
  Permutation (assigned_ids (run evs (system_new config)))
              (issue_log evs (system_new config)) /\
  List.length (issue_log evs (system_new config)) =
    List.length (tasks (run evs (system_new config))).
Proof.
  intros Hret.
  pose proof (run_ids evs (system_new config)) as Hp. simpl in Hp.
  destruct (omap_task_id_returned _ Hret) as [Hids Hlen].
  rewrite Hids in Hp. split; [exact Hp|].
  apply Permutation_length in Hp. rewrite length_map in Hp. congruence.
Qed.

Lemma issue_log_new (config : list (string * string)) (evs : list event) :
  issue_log evs (system_new config) =
  map (fun j => (1 + Z.of_nat j) mod uint64_modulus)
      (seq 0 (List.length (issue_log evs (system_new config)))).
Proof.
  apply (issue_log_consecutive evs (system_new config)).
  simpl. unfold uint64_modulus. lia.
Qed.

(** ** One creation after the other *)

Lemma exec_Run_last (e : env) (m : UserManager) (l : list task) (t : task) :
  exec (Run (List.length l) e) {| manager := m; tasks := l ++ [t] |} =
  {| manager := after (task_step e t) m;
     tasks := l ++ [result (task_step e t) m] |}.
Proof.
  rewrite exec_Run with (t := t) by apply nth_error_snoc.
  simpl. now rewrite set_nth_snoc.
Qed.

(** A creation that runs from the call to the resolution of its future with
    nothing else in between: it takes the counter's value as identifier,
    advances the counter, and appends its record. *)
Lemma one_call_alone (name email : string) (role : option UserRole) (s : system) :
  run (one_call (List.length (tasks s)) name email role) s =
  let u := User_new 0 (next_id_ (manager s)) name email (role_or_default role) in
  {| manager :=
       {| users_ := users_ (manager s) ++ [u];
          next_id_ := (next_id_ (manager s) + 1) mod uint64_modulus;
          config_ := config_ (manager s) |};
     tasks := tasks s ++ [Returned u] |}.
Proof.
  unfold one_call. rewrite !run_cons.
  change (exec (Call name email role) s)
    with {| manager := manager s;
            tasks := tasks s ++
                     [Launched (mkRequest name email (role_or_default role))] |}.
  repeat (rewrite exec_Run_last;
          cbv [task_step bind ret after result fetch_add fst snd throws now
               quiet on_users addUser modify push_back users_ next_id_
               config_ copy User_Element]).
  rewrite User_copy_same. reflexivity.
Qed.

Lemma forallb_snoc {A} (f : A -> bool) (l : list A) (x : A) :
  forallb f (l ++ [x]) = forallb f l && f x.
Proof. rewrite forallb_app. simpl. now rewrite andb_true_r. Qed.

(** ** What the store holds *)

Lemma store_is_added (config : list (string * string)) (evs : list event) :
  Permutation (omap added_user (tasks (run evs (system_new config))))
              (users_ (manager (run evs (system_new config)))).
Proof.
  destruct (run_store evs (system_new config)) as (new & Hu & Hp).
  simpl in Hu, Hp. now rewrite Hu.
Qed.

(** C2 (amended). In every state a fresh manager reaches, [findUserById id]
    yields a record exactly when some task has performed its insertion of a
    record with that identifier; the record it yields has that identifier and
    is such a task's record.  Hence the identifier of every completed creation
    is found, and on an empty store nothing is found for any identifier. *)
Theorem findUserById_iff_added
    (config : list (string * string)) (evs : list event) (id : Z) :
  let s := run evs (system_new config) in
  ((exists u, result (findUserById id) (manager s) = Some u) <->
   (exists t u, In t (tasks s) /\ added_user t = Some u /\ id_ u = id)) /\
  (forall u, result (findUserById id) (manager s) = Some u ->
     id_ u = id /\ exists t, In t (tasks s) /\ added_user t = Some u) /\
  (forall u, In (Returned u) (tasks s) -> id_ u = id ->
     exists v, result (findUserById id) (manager s) = Some v /\ id_ v = id) /\
  (forall m, users_ m = [] -> result (findUserById id) m = None) /\
  result (findUserById id) (manager (system_new config)) = None.
Proof.
  intros s. pose proof (store_is_added config evs) as Hp. fold s in Hp.
  assert (Hfound : forall u, result (findUserById id) (manager s) = Some u ->
            id_ u = id /\ exists t, In t (tasks s) /\ added_user t = Some u).
  { intros u Hf. apply findUserById_some in Hf. destruct Hf as [Hin Hid].
    split; [exact Hid|]. apply omap_in.
    apply Permutation_sym in Hp. exact (Permutation_in _ Hp Hin). }
  assert (Hadded : forall t u, In t (tasks s) -> added_user t = Some u ->
            id_ u = id ->
            exists v, result (findUserById id) (manager s) = Some v /\ id_ v = id).
  { intros t u Hin Ha <-. apply findUserById_finds.
    apply (Permutation_in _ Hp). apply omap_in. eauto. }
  split; [split|split; [exact Hfound|split; [|split]]].
  - intros [u Hf]. destruct (Hfound u Hf) as (Hid & t & Hin & Ha). eauto.
  - intros (t & u & Hin & Ha & Hid).
    destruct (Hadded t u Hin Ha Hid) as (v & Hv & _). eauto.
  - intros u Hin Hid. exact (Hadded (Returned u) u Hin eq_refl Hid).
  - intros m Hm. unfold result. rewrite findUserById_find, Hm. reflexivity.
  - reflexivity.
Qed.

(** The claim C2 as written fails: a record is found while its creation has
    not completed. *)
Lemma findUserById_before_completion :
  result (findUserById 1) (manager (run inflight_schedule (system_new []))) =
    Some (User_new 2 1 "Alice" "a@x.com" ADMIN) /\
  tasks (run inflight_schedule (system_new [])) =
    [Added (User_new 2 1 "Alice" "a@x.com" ADMIN)] /\
  existsb is_returned (tasks (run inflight_schedule (system_new []))) = false.
Proof. repeat split. Qed.

(** ** One task among the others *)

Lemma exec_task_at (ev : event) (s : system) (i : nat) (t : task) :
  nth_error (tasks s) i = Some t ->
  exists t',
    nth_error (tasks (exec ev s)) i = Some t' /\
    ((t' = t /\ forall e, ev <> Run i e) \/
     (exists e, ev = Run i e /\
                t' = result (task_step e t) (manager s) /\
                manager (exec ev s) = after (task_step e t) (manager s))).
Proof.
  intros Hn. destruct ev as [name email role | who e].
  - exists t. split; [|left; split; [reflexivity | discriminate]].
    simpl. rewrite nth_error_app1; [exact Hn|].
    apply nth_error_Some. congruence.
  - destruct (Nat.eq_dec who i) as [-> | Hne].
    + exists (result (task_step e t) (manager s)).
      rewrite exec_Run with (t := t) by exact Hn. simpl.
      split; [now apply nth_error_set_nth_eq with (y := t)|].
      right. exists e. auto.
    + exists t. split; [|left; split; [reflexivity | congruence]].
      destruct (nth_error (tasks s) who) as [t0|] eqn:Hw.
      * rewrite exec_Run with (t := t0) by exact Hw. simpl.
        now rewrite nth_error_set_nth_neq.
      * now rewrite exec_Run_none.
Qed.

Lemma exec_users_grow (ev : event) (s : system) (u : User) :
  In u (users_ (manager s)) -> In u (users_ (manager (exec ev s))).
Proof.
  intros Hin. destruct (exec_store ev s) as (new & -> & _).
  apply in_or_app. now left.
Qed.

Lemma task_step_serves (rq : request) e t m :
  serves rq t -> serves rq (result (task_step e t) m).
Proof.
  step_cases e t m; auto.
  intros ->. auto.
Qed.

Lemma task_step_keeps_id (id : Z) e t m :
  task_id t = Some id -> task_id (result (task_step e t) m) = Some id.
Proof.
  intros Hid.
  destruct (task_step_counter e t m) as [(r & -> & _) | (_ & -> & _)];
    [discriminate | exact Hid].
Qed.

Lemma task_step_added_in e t m :
  (forall u, added_user t = Some u -> In u (users_ m)) ->
  forall u, added_user (result (task_step e t) m) = Some u ->
            In u (users_ (after (task_step e t) m)).
Proof.
  intros Hin u.
  destruct (task_step_users e t m) as [[-> ->] | (v & -> & -> & _ & ->)].
  - apply Hin.
  - intros [= ->]. apply in_or_app. right. now left.
Qed.

Lemma task_step_progress e t m :
  throws e = false ->
  steps_left (result (task_step e t) m) = pred (steps_left t) /\
  is_thrown (result (task_step e t) m) = is_thrown t.
Proof.
  intros He. step_cases e t m; auto; congruence.
Qed.

(** What holds of a task and is kept by each of its actions holds of it
    after any run. *)
Lemma run_task_preserved (P : task -> Prop) :
  (forall e t m, P t -> P (result (task_step e t) m)) ->
  forall evs s i t,
    nth_error (tasks s) i = Some t -> P t ->
    exists t', nth_error (tasks (run evs s)) i = Some t' /\ P t'.
Proof.
  intros HP. induction evs as [|ev evs IH]; intros s i t Hn Ht.
  - exists t. auto.
  - rewrite run_cons.
    destruct (@exec_task_at ev s i _ Hn)
      as (t' & Hn' & [[-> _] | (e & _ & -> & _)]); eauto.
Qed.

Lemma run_added_in (evs : list event) :
  forall s i t,
    nth_error (tasks s) i = Some t ->
    (forall u, added_user t = Some u -> In u (users_ (manager s))) ->
    forall t' u,
      nth_error (tasks (run evs s)) i = Some t' ->
      added_user t' = Some u ->
      In u (users_ (manager (run evs s))).
Proof.
  induction evs as [|ev evs IH]; intros s i t Hn Hin t' u Hn' Ha.
  - simpl in *. apply Hin. congruence.
  - rewrite run_cons in *.
    destruct (@exec_task_at ev s i _ Hn)
      as (t1 & Hn1 & [[-> _] | (e & _ & -> & Hm)]).
    + eapply IH; [exact Hn1| |exact Hn'|exact Ha].
      intros v Hv. now apply exec_users_grow, Hin.
    + eapply IH; [exact Hn1| |exact Hn'|exact Ha].
      rewrite Hm. now apply task_step_added_in.
Qed.

(** A task that gets its remaining actions, none of them throwing, resolves
    its future. *)
Lemma run_resolves (evs : list event) :
  forall s i t,
    nth_error (tasks s) i = Some t ->
    is_thrown t = false ->
    (steps_left t <= List.length (actions_of i evs))%nat ->
    forallb (fun e => negb (throws e))
            (firstn (steps_left t) (actions_of i evs)) = true ->
    exists u, nth_error (tasks (run evs s)) i = Some (Returned u).
Proof.
  induction evs as [|ev evs IH]; intros s i t Hn Hth Hlen Hok.
  - simpl in *. destruct t; simpl in *; try lia; try discriminate. eauto.
  - rewrite run_cons.
    destruct (@exec_task_at ev s i _ Hn)
      as (t1 & Hn1 & [[-> Hev] | (e & -> & -> & _)]).
    + apply (IH _ _ _ Hn1 Hth).
      * destruct ev as [? ? ?|who e]; simpl in *; [exact Hlen|].
        destruct (Nat.eqb_spec who i) as [->|]; [now destruct (Hev e)|exact Hlen].
      * destruct ev as [? ? ?|who e]; simpl in *; [exact Hok|].
        destruct (Nat.eqb_spec who i) as [->|]; [now destruct (Hev e)|exact Hok].
    + simpl in Hlen, Hok. rewrite Nat.eqb_refl in Hlen, Hok. simpl in Hlen.
      destruct (steps_left t) as [|k] eqn:Hk.
      * destruct t; simpl in *; try discriminate.
        apply (IH _ _ _ Hn1); simpl; auto; lia.
      * simpl in Hok. apply andb_true_iff in Hok. destruct Hok as [He Hok].
        apply negb_true_iff in He.
        destruct (task_step_progress e t (manager s) He) as [Hs Ht].
        rewrite Hk in Hs. simpl in Hs.
        apply (IH _ _ _ Hn1); rewrite ?Hs, ?Ht; auto. lia.
Qed.

(** The identifier of a created record is the value the counter held when the
    task drew it, and the draw advanced the counter by one, modulo 2^64. *)
Lemma run_draw (evs : list event) :
  forall s i r u,
    nth_error (tasks s) i = Some (Launched r) ->
    nth_error (tasks (run evs s)) i = Some (Returned u) ->
    exists evs1 e evs2,
      evs = evs1 ++ Run i e :: evs2 /\
      nth_error (tasks (run evs1 s)) i = Some (Launched r) /\
      id_ u = next_id_ (manager (run evs1 s)) /\
      next_id_ (manager (run (evs1 ++ [Run i e]) s)) =
        (id_ u + 1) mod uint64_modulus.
Proof.
  induction evs as [|ev evs IH]; intros s i r u Hn Hret.
  - simpl in Hret. congruence.
  - rewrite run_cons in Hret.
    destruct (@exec_task_at ev s i _ Hn)
      as (t1 & Hn1 & [[-> _] | (e & -> & -> & Hm)]).
    + destruct (IH _ _ _ _ Hn1 Hret) as (evs1 & e & evs2 & -> & H1 & H2 & H3).
      exists (ev :: evs1), e, evs2. auto.
    + exists [], e, evs. split; [reflexivity|]. split; [exact Hn|].
      destruct (@run_task_preserved
                  (fun t => task_id t = Some (next_id_ (manager s)))
                  (@task_step_keeps_id (next_id_ (manager s)))
                  evs _ _ _ Hn1 eq_refl) as (t' & Hn' & Hid).
      rewrite Hret in Hn'. injection Hn' as <-. simpl in Hid.
      injection Hid as Hid. split; [exact Hid|].
      change (run ([] ++ [Run i e]) s) with (exec (Run i e) s).
      rewrite Hm, Hid. reflexivity.
Qed.

(** ** Creation *)

Lemma returned_record (s : system) (i : nat) (r : request) (evs : list event)
    (u : User) :
  nth_error (tasks s) i = Some (Launched r) ->
  nth_error (tasks (run evs s)) i = Some (Returned u) ->
  (name_ u = rq_name r /\ email_ u = rq_email r /\
   role_ u = rq_role r /\ status_ u = ACTIVE) /\
  In u (users_ (manager (run evs s))).
Proof.
  intros Hn Hret. split.
  - destruct (@run_task_preserved (serves r) (@task_step_serves r)
                evs s i _ Hn eq_refl) as (t' & Hn' & Hs).
    rewrite Hret in Hn'. injection Hn' as <-. exact Hs.
  - apply (@run_added_in evs s i _ Hn) with (t' := Returned u);
      [discriminate | exact Hret | reflexivity].
Qed.

(** C7. A call [createUserAsync name email role] whose task gets its four
    actions, none of them throwing, whatever else happens in between,
    resolves its future with a record that has the given name and email, as
    role the one given, or [USER] when the argument is left out, and status
    [ACTIVE]; the record's identifier is the counter's value at the moment the
    task drew it, and the draw advanced the counter; and in the state reached,
    the record is in the store and is found by the queries. *)
Theorem createUserAsync_record
    (s : system) (name email : string) (role : option UserRole)
    (evs : list event) :
  let i := result (createUserAsync name email role) s in
  let s1 := after (createUserAsync name email role) s in
  let s' := run evs s1 in
  completes i evs = true ->
  exists u,
    nth_error (tasks s') i = Some (Returned u) /\
    name_ u = name /\ email_ u = email /\
    role_ u = match role with Some given => given | None => USER end /\
    status_ u = ACTIVE /\
    (exists evs1 e evs2,
       evs = evs1 ++ Run i e :: evs2 /\
       id_ u = next_id_ (manager (run evs1 s1)) /\
       next_id_ (manager (run (evs1 ++ [Run i e]) s1)) =
         (id_ u + 1) mod uint64_modulus) /\
    In u (users_ (manager s')) /\
    In u (result (getUsersByRole (role_ u)) (manager s')) /\
    (forall other, other <> role_ u ->
       ~ In u (result (getUsersByRole other) (manager s'))) /\
    In u (result getActiveUsers (manager s')) /\
    (exists v, result (findUserById (id_ u)) (manager s') = Some v /\
               id_ v = id_ u).
Proof.
  intros i s1 s' Hc.
  set (r := mkRequest name email (role_or_default role)).
  assert (Hn : nth_error (tasks s1) i = Some (Launched r))
    by apply nth_error_snoc.
  unfold completes in Hc. apply andb_true_iff in Hc. destruct Hc as [Hlen Hok].
  apply Nat.leb_le in Hlen.
  destruct (@run_resolves evs s1 i _ Hn eq_refl Hlen Hok) as [u Hret].
  fold s' in Hret.
  destruct (@returned_record s1 i r evs u Hn Hret)
    as [(Hname & Hemail & Hrole & Hstatus) Hin].
  fold s' in Hin. simpl in Hname, Hemail, Hrole.
  destruct (@run_draw evs s1 i r u Hn Hret)
    as (evs1 & e & evs2 & Hevs & _ & Hid & Hnext).
  exists u. split; [exact Hret|].
  split; [exact Hname|]. split; [exact Hemail|].
  split; [rewrite Hrole; now destruct role|]. split; [exact Hstatus|].
  split; [exists evs1, e, evs2; auto|].
  split; [exact Hin|]. split; [|split; [|split]].
  - unfold result. rewrite getUsersByRole_filter. simpl.
    apply filter_In. split; [exact Hin|]. now apply UserRole_eqb_eq.
  - intros other Hother Hfound. unfold result in Hfound.
    rewrite getUsersByRole_filter in Hfound. simpl in Hfound.
    apply filter_In in Hfound. destruct Hfound as [_ Heq].
    apply UserRole_eqb_eq in Heq. congruence.
  - unfold result. rewrite getActiveUsers_filter. simpl.
    apply filter_In. split; [exact Hin|].
    unfold isActive. now apply UserStatus_eqb_eq.
  - now apply findUserById_finds.
Qed.

Lemma createUserAsync_record_witness :
  let evs := [Run 0 (tick 1); Call "Bob" "b@x.com" (Some ADMIN);
              Run 1 (tick 2); Run 0 (tick 3); Run 1 (tick 4);
              Run 0 (tick 5); Run 0 (tick 6); Run 1 (tick 7); Run 1 (tick 8)] in
  let s1 := after (createUserAsync "Alice" "a@x.com" None) (system_new []) in
  let s' := run evs s1 in
  let s2 := after (createUserAsync "Carol" "c@x.com" (Some GUEST)) s' in
  let evs' := [Run 2 (tick 9); Run 2 (tick 10); Run 2 (tick 11);
               Run 2 (tick 12)] in
  (completes 0 evs = true /\
   exists u,
     nth_error (tasks s') 0 = Some (Returned u) /\
     name_ u = "Alice"%string /\ email_ u = "a@x.com"%string /\
     role_ u = USER /\ status_ u = ACTIVE /\
     In u (users_ (manager s'))) /\
  (completes 2 evs' = true /\
   exists u,
     nth_error (tasks (run evs' s2)) 2 = Some (Returned u) /\
     name_ u = "Carol"%string /\ email_ u = "c@x.com"%string /\
     role_ u = GUEST /\ status_ u = ACTIVE /\
     In u (users_ (manager (run evs' s2)))).
Proof.
  intros evs s1 s' s2 evs'. split.
  - split; [reflexivity|].
    destruct (@createUserAsync_record (system_new []) "Alice" "a@x.com" None
                evs eq_refl)
      as (u & Hret & Hname & Hemail & Hrole & Hstatus & _ & Hin & _).
    exists u. repeat split; assumption.
  - split; [reflexivity|].
    destruct (@createUserAsync_record s' "Carol" "c@x.com" (Some GUEST)
                evs' eq_refl)
      as (u & Hret & Hname & Hemail & Hrole & Hstatus & _ & Hin & _).
    exists u. repeat split; assumption.
Defined.

(** ** Failure *)

Lemma solo_after_insert (es : list env) :
  forall s i t u,
    nth_error (tasks s) i = Some t ->
    added_user t = Some u ->
    exists t',
      nth_error (tasks (run (map (Run i) es) s)) i = Some t' /\
      added_user t' = Some u /\
      users_ (manager (run (map (Run i) es) s)) = users_ (manager s).
Proof.
  induction es as [|e es IH]; intros s i t u Hn Ha; [simpl; eauto|].
  simpl map. rewrite run_cons.
  destruct (@exec_task_at (Run i e) s i t Hn)
    as (t1 & Hn1 & [[_ Hev] | (e' & [= <-] & -> & Hm)]);
    [now destruct (Hev e)|].
  destruct (task_step_users e t (manager s))
    as [[Hu Hadd] | (v & -> & _)]; [|discriminate].
  rewrite Ha in Hadd.
  destruct (IH _ _ _ _ Hn1 Hadd) as (t' & Hn' & Ha' & Hu').
  exists t'. rewrite Hu', Hm, Hu. auto.
Qed.

Lemma solo_store (es : list env) :
  forall s i t,
    nth_error (tasks s) i = Some t ->
    added_user t = None ->
    exists t',
      nth_error (tasks (run (map (Run i) es) s)) i = Some t' /\
      users_ (manager (run (map (Run i) es) s)) =
        users_ (manager s) ++
        match added_user t' with Some u => [u] | None => [] end.
Proof.
  induction es as [|e es IH]; intros s i t Hn Ha.
  - exists t. simpl. rewrite Ha, app_nil_r. auto.
  - simpl map. rewrite run_cons.
    destruct (@exec_task_at (Run i e) s i t Hn)
      as (t1 & Hn1 & [[_ Hev] | (e' & [= <-] & -> & Hm)]);
      [now destruct (Hev e)|].
    destruct (task_step_users e t (manager s))
      as [[Hu Hadd] | (v & -> & Hres & _ & Hu)].
    + rewrite Ha in Hadd.
      destruct (IH _ _ _ Hn1 Hadd) as (t' & Hn' & Hu').
      exists t'. rewrite Hu', Hm, Hu. auto.
    + assert (Hadd : added_user (result (task_step e (Built v)) (manager s))
                     = Some v) by now rewrite Hres.
      destruct (@solo_after_insert es _ _ _ v Hn1 Hadd) as (t' & Hn' & Ha' & Hu').
      exists t'. rewrite Hu', Hm, Hu, Ha'. auto.
Qed.

(** C8 (amended). A statement of the task that throws leaves the store as it
    was, so a creation that fails while it constructs or inserts its record
    changes nothing in the store.  Every event leaves the store as it was or
    appends to it the one whole record that a task had built; over any run the
    store grows exactly by the records of the tasks that performed their
    insertion.  A creation running on its own ends with the store unchanged or
    with its record appended, according to whether it had inserted, also when
    it fails afterwards. *)
Theorem createUser_store_atomic :
  (forall e t m,
     throws e = true -> users_ (after (task_step e t) m) = users_ m) /\
  (forall ev s,
     users_ (manager (exec ev s)) = users_ (manager s) \/
     exists who e u,
       ev = Run who e /\ throws e = false /\
       nth_error (tasks s) who = Some (Built u) /\
       nth_error (tasks (exec ev s)) who = Some (Added u) /\
       users_ (manager (exec ev s)) = users_ (manager s) ++ [u]) /\
  (forall evs s,
     exists new,
       users_ (manager (run evs s)) = users_ (manager s) ++ new /\
       Permutation (omap added_user (tasks (run evs s)))
                   (omap added_user (tasks s) ++ new)) /\
  (forall s name email role es,
     let i := result (createUserAsync name email role) s in
     let s' := run (map (Run i) es)
                   (after (createUserAsync name email role) s) in
     exists t',
       nth_error (tasks s') i = Some t' /\
       users_ (manager s') =
         users_ (manager s) ++
         match added_user t' with Some u => [u] | None => [] end).
Proof.
  split; [exact task_step_throws|]. split; [|split; [exact run_store|]].
  - intros [name email role | who e] s; [now left|].
    destruct (nth_error (tasks s) who) as [t|] eqn:Hn.
    + rewrite exec_Run with (t := t) by exact Hn. simpl.
      destruct (task_step_users e t (manager s))
        as [[Hu _] | (u & -> & Hres & He & Hu)]; [now left|].
      right. exists who, e, u. rewrite Hres.
      repeat split; auto. now apply nth_error_set_nth_eq with (y := Built u).
    + rewrite exec_Run_none by exact Hn. now left.
  - intros s name email role es i s'.
    destruct (@solo_store es (after (createUserAsync name email role) s) i
                (Launched (mkRequest name email (role_or_default role)))
                (nth_error_snoc _ _) eq_refl) as (t' & Hn' & Hu').
    exists t'. split; [exact Hn' | exact Hu'].
Qed.

(** The claim C8 as written fails: the printing after the insertion throws,
    the future reports the failure, and the store holds the record. *)
Lemma createUser_fails_after_insert :
  tasks (run late_fault_schedule (system_new [])) =
    [Threw 1 (Some (User_new 2 1 "Alice" "a@x.com" ADMIN))] /\
  users_ (manager (run late_fault_schedule (system_new []))) =
    [User_new 2 1 "Alice" "a@x.com" ADMIN] /\
  users_ (manager (system_new [])) = [] /\
  result (findUserById 1) (manager (run late_fault_schedule (system_new []))) =
    Some (User_new 2 1 "Alice" "a@x.com" ADMIN).
Proof. repeat split. Qed.

(** A creation whose construction throws has drawn an identifier and left
    the store empty. *)
Lemma createUser_fails_before_insert :
  tasks (run early_fault_schedule (system_new [])) = [Threw 1 None] /\
  users_ (manager (run early_fault_schedule (system_new []))) = [] /\
  next_id_ (manager (run early_fault_schedule (system_new []))) = 2.
Proof. repeat split. Qed.

(** * Further properties of the code *)

(** ** Invariants of the tasks *)

Lemma Forall_set_nth {A} (P : A -> Prop) (i : nat) (x : A) (l : list A) :
  Forall P l -> P x -> Forall P (set_nth i x l).
Proof.
  intros Hl Hx. revert i; induction Hl as [|y l Hy Hl IH]; intros [|i]; simpl;
    constructor; auto.
Qed.

Lemma omap_length {A B} (f : A -> option B) (l : list A) :
  (List.length (omap f l) <= List.length l)%nat.
Proof.
  induction l as [|x l IH]; simpl; [lia|].
  destruct (f x); simpl; lia.
Qed.

Lemma omap_NoDup_inj {A B} (f : A -> option B) (l : list A) (a b : A) (z : B) :
  NoDup (omap f l) -> In a l -> In b l ->
  f a = Some z -> f b = Some z -> a = b.
Proof.
  intros Hnd Ha Hb Hfa Hfb. induction l as [|x l IH]; [destruct Ha|].
  simpl in Hnd. destruct (f x) as [y|] eqn:Hx.
  - inversion Hnd as [|? ? Hy Hnd']; subst.
    destruct Ha as [-> | Ha], Hb as [-> | Hb]; auto.
    + exfalso. apply Hy. apply omap_in. exists b. split; congruence.
    + exfalso. apply Hy. apply omap_in. exists a. split; congruence.
  - destruct Ha as [-> | Ha], Hb as [-> | Hb]; try congruence. auto.
Qed.

Lemma task_step_ok e t m : task_ok t -> task_ok (result (task_step e t) m).
Proof. step_cases e t m; auto. Qed.

Lemma exec_tasks_Forall (P : task -> Prop) :
  (forall r, P (Launched r)) ->
  (forall e t m, P t -> P (result (task_step e t) m)) ->
  forall ev s, Forall P (tasks s) -> Forall P (tasks (exec ev s)).
Proof.
  intros HL HP [name email role | who e] s Hs.
  - simpl. apply Forall_app. split; [exact Hs|]. constructor; auto.
  - destruct (nth_error (tasks s) who) as [t|] eqn:Hn.
    + rewrite exec_Run with (t := t) by exact Hn. simpl.
      apply Forall_set_nth; [exact Hs|]. apply HP.
      apply nth_error_In in Hn. rewrite Forall_forall in Hs. auto.
    + now rewrite exec_Run_none.
Qed.

Lemma run_tasks_Forall (P : task -> Prop) :
  (forall r, P (Launched r)) ->
  (forall e t m, P t -> P (result (task_step e t) m)) ->
  forall evs s, Forall P (tasks s) -> Forall P (tasks (run evs s)).
Proof.
  intros HL HP. induction evs as [|ev evs IH]; intros s Hs; [exact Hs|].
  rewrite run_cons. apply IH. now apply exec_tasks_Forall.
Qed.

Lemma tasks_ok (config : list (string * string)) (evs : list event) :
  Forall task_ok (tasks (run evs (system_new config))).
Proof.
  apply run_tasks_Forall; [intros r; exact I | | constructor].
  intros e t m. apply task_step_ok.
Qed.

Lemma added_has_task_id (t : task) (u : User) :
  task_ok t -> added_user t = Some u -> task_id t = Some (id_ u).
Proof.
  destruct t as [r|r id|v|v|v|id [v|]]; simpl; try discriminate.
  - now intros _ [= ->].
  - now intros _ [= ->].
  - intros [<- _] [= ->]. reflexivity.
Qed.

Lemma added_ids_in_task_ids (l : list task) (z : Z) :
  Forall task_ok l ->
  In z (map id_ (omap added_user l)) -> In z (omap task_id l).
Proof.
  intros Hok Hin. apply in_map_iff in Hin. destruct Hin as (u & <- & Hu).
  apply omap_in in Hu. destruct Hu as (t & Ht & Ha).
  apply omap_in. exists t. split; [exact Ht|].
  apply added_has_task_id; [|exact Ha].
  rewrite Forall_forall in Hok. auto.
Qed.

Lemma added_ids_NoDup (l : list task) :
  Forall task_ok l ->
  NoDup (omap task_id l) -> NoDup (map id_ (omap added_user l)).
Proof.
  induction l as [|t l IH]; intros Hok Hnd; [constructor|].
  inversion Hok as [|? ? Ht Hl]; subst. simpl in *.
  destruct (added_user t) as [u|] eqn:Ha.
  - rewrite (added_has_task_id t Ht Ha) in Hnd.
    inversion Hnd as [|? ? Hz Hnd']; subst. simpl. constructor; auto.
    intros Hin. apply Hz. now apply added_ids_in_task_ids.
  - apply IH; [exact Hl|]. destruct (task_id t); [now inversion Hnd | exact Hnd].
Qed.

Lemma wrapped_succ_inj (a b : nat) :
  Z.of_nat a < uint64_modulus -> Z.of_nat b < uint64_modulus ->
  (1 + Z.of_nat a) mod uint64_modulus = (1 + Z.of_nat b) mod uint64_modulus ->
  a = b.
Proof.
  intros Ha Hb.
  assert (HM : 0 < uint64_modulus) by (unfold uint64_modulus; lia).
  destruct (Z.eq_dec (1 + Z.of_nat a) uint64_modulus) as [Ea | Ea];
  destruct (Z.eq_dec (1 + Z.of_nat b) uint64_modulus) as [Eb | Eb].
  - lia.
  - rewrite Ea, Z.mod_same, (Z.mod_small (1 + Z.of_nat b)) by lia. lia.
  - rewrite Eb, Z.mod_same, (Z.mod_small (1 + Z.of_nat a)) by lia. lia.
  - rewrite !Z.mod_small by lia. lia.
Qed.

Lemma task_ids_NoDup (config : list (string * string)) (evs : list event) :
  Z.of_nat (List.length (tasks (run evs (system_new config)))) <= uint64_modulus ->
  NoDup (omap task_id (tasks (run evs (system_new config)))).
Proof.
  intros Hn.
  pose proof (run_ids evs (system_new config)) as Hp. simpl in Hp.
  apply Permutation_sym in Hp. apply (Permutation_NoDup Hp).
  assert (Hlen : (List.length (issue_log evs (system_new config)) <=
                  List.length (tasks (run evs (system_new config))))%nat).
  { apply Permutation_length in Hp. rewrite Hp. apply omap_length. }
  rewrite issue_log_new.
  apply Finite.Injective_map_NoDup_in; [|apply seq_NoDup].
  intros a b Ha Hb. apply in_seq in Ha, Hb.
  apply wrapped_succ_inj; lia.
Qed.

Lemma NoDup_map_same {A B} (f : A -> B) (l : list A) (x y : A) :
  NoDup (map f l) -> In x l -> In y l -> f x = f y -> x = y.
Proof.
  induction l as [|a l IH]; intros Hnd Hx Hy Hf; [destruct Hx|].
  simpl in Hnd. inversion Hnd as [|? ? Ha Hnd']; subst.
  destruct Hx as [-> | Hx], Hy as [-> | Hy]; auto.
  - exfalso. apply Ha. rewrite Hf. now apply in_map.
  - exfalso. apply Ha. rewrite <- Hf. now apply in_map.
Qed.

Lemma stored_ids_NoDup (config : list (string * string)) (evs : list event) :
  Z.of_nat (List.length (tasks (run evs (system_new config)))) <= uint64_modulus ->
  NoDup (map id_ (users_ (manager (run evs (system_new config))))).
Proof.
  intros Hn.
  pose proof (store_is_added config evs) as Hp.
  apply (Permutation_map id_) in Hp. apply (Permutation_NoDup Hp).
  apply added_ids_NoDup; [apply tasks_ok | now apply task_ids_NoDup].
Qed.

(** X1. As long as no more than 2^64 creations have been launched on a fresh
    manager, the stored records carry pairwise distinct identifiers, whatever
    the interleaving and whichever tasks are pending or have thrown.  So two
    stored records that [operator==] takes for equal are the same record, and
    [findUserById] with the identifier of a stored record yields that very
    record. *)
Theorem stored_ids_distinct (config : list (string * string)) (evs : list event) :
  let s := run evs (system_new config) in
  Z.of_nat (List.length (tasks s)) <= uint64_modulus ->
  NoDup (map id_ (users_ (manager s))) /\
  (forall u v, In u (users_ (manager s)) -> In v (users_ (manager s)) ->
     operator_eq u v = true -> u = v) /\
  (forall u, In u (users_ (manager s)) ->
     result (findUserById (id_ u)) (manager s) = Some u).
Proof.
  intros s Hn. pose proof (stored_ids_NoDup config evs Hn) as Hnd. fold s in Hnd.
  split; [exact Hnd|]. split.
  - intros u v Hu Hv Heq. apply Z.eqb_eq in Heq.
    exact (NoDup_map_same id_ _ _ _ Hnd Hu Hv Heq).
  - intros u Hu. destruct (findUserById_finds (manager s) u Hu) as (v & Hv & Hid).
    rewrite Hv. f_equal. apply findUserById_some in Hv. destruct Hv as [Hv _].
    exact (NoDup_map_same id_ _ _ _ Hnd Hv Hu Hid).
Qed.

Lemma stored_ids_distinct_witness :
  let s := run main_schedule (system_new []) in
  Z.of_nat (List.length (tasks s)) <= uint64_modulus /\
  NoDup (map id_ (users_ (manager s))) /\
  map id_ (users_ (manager s)) = [3; 5; 1; 4; 2].
Proof.
  assert (Hn : Z.of_nat (List.length (tasks (run main_schedule (system_new []))))
               <= uint64_modulus)
    by (vm_compute; discriminate).
  split; [exact Hn|]. split; [|reflexivity].
  exact (proj1 (stored_ids_distinct [] main_schedule Hn)).
Defined.

(** X2. The identifier drawn by a creation that threw before its insertion is
    not given to any other creation: as long as no more than 2^64 creations
    have been launched, [findUserById] yields nothing for it. *)
Theorem failed_id_never_stored
    (config : list (string * string)) (evs : list event) (i : nat) (id : Z) :
  let s := run evs (system_new config) in
  Z.of_nat (List.length (tasks s)) <= uint64_modulus ->
  nth_error (tasks s) i = Some (Threw id None) ->
  result (findUserById id) (manager s) = None.
Proof.
  intros s Hn Hi.
  destruct (result (findUserById id) (manager s)) as [v|] eqn:Hf; [|reflexivity].
  exfalso. apply findUserById_some in Hf. destruct Hf as [Hv Hid].
  pose proof (store_is_added config evs) as Hp. fold s in Hp.
  apply Permutation_sym in Hp. apply (Permutation_in _ Hp) in Hv.
  apply omap_in in Hv. destruct Hv as (t & Ht & Ha).
  pose proof (tasks_ok config evs) as Hok. fold s in Hok.
  rewrite Forall_forall in Hok.
  pose proof (added_has_task_id t (Hok t Ht) Ha) as Htid. rewrite Hid in Htid.
  pose proof (task_ids_NoDup config evs Hn) as Hnd. fold s in Hnd.
  assert (Heq : t = Threw id None).
  { apply omap_NoDup_inj with (f := task_id) (l := tasks s) (z := id);
      [exact Hnd | exact Ht | now apply nth_error_In with (n := i)
      | exact Htid | reflexivity]. }
  subst t. discriminate.
Qed.

Lemma failed_id_never_stored_witness :
  let s := run gap_schedule (system_new []) in
  Z.of_nat (List.length (tasks s)) <= uint64_modulus /\
  nth_error (tasks s) 0 = Some (Threw 1 None) /\
  map id_ (users_ (manager s)) = [2] /\
  result (findUserById 1) (manager s) = None.
Proof.
  assert (Hn : Z.of_nat (List.length (tasks (run gap_schedule (system_new []))))
               <= uint64_modulus)
    by (vm_compute; discriminate).
  split; [exact Hn|]. split; [reflexivity|]. split; [reflexivity|].
  exact (@failed_id_never_stored [] gap_schedule 0%nat 1 Hn eq_refl).
Defined.

Lemma filter_all {A} (p : A -> bool) (l : list A) :
  Forall (fun x => p x = true) l -> filter p l = l.
Proof.
  induction 1 as [|x l Hx Hl IH]; simpl; [reflexivity|].
  now rewrite Hx, IH.
Qed.

(** ** The counter, the tasks and the size of the store *)

Lemma next_id_after_run (evs : list event) (s : system) :
  0 <= next_id_ (manager s) < uint64_modulus ->
  next_id_ (manager (run evs s)) =
  (next_id_ (manager s) + Z.of_nat (List.length (issue_log evs s)))
    mod uint64_modulus.
Proof.
  revert s; induction evs as [|ev evs IH]; intros s Hc.
  - simpl. rewrite Z.add_0_r. symmetry. now apply Z.mod_small.
  - rewrite run_cons. simpl issue_log.
    assert (HM : 0 < uint64_modulus) by (unfold uint64_modulus; lia).
    destruct (exec_ids ev s) as [_ [[-> Hn] | [-> Hn]]]; simpl app.
    + rewrite IH by (now rewrite Hn). now rewrite Hn.
    + rewrite IH by (rewrite Hn; now apply Z.mod_pos_bound).
      rewrite Hn, Z.add_mod_idemp_l by lia. simpl List.length. f_equal. lia.
Qed.

Lemma tasks_length (evs : list event) (s : system) :
  List.length (tasks (run evs s)) =
  (List.length (tasks s) + List.length (calls_of evs))%nat.
Proof.
  revert s; induction evs as [|ev evs IH]; intros s; [simpl; lia|].
  rewrite run_cons, IH. destruct ev as [name email role | who e].
  - simpl. rewrite length_app. simpl. lia.
  - simpl calls_of. f_equal.
    destruct (nth_error (tasks s) who) as [t|] eqn:Hn.
    + rewrite exec_Run with (t := t) by exact Hn. simpl. apply length_set_nth.
    + now rewrite exec_Run_none.
Qed.

Lemma added_le_ids (l : list task) :
  Forall task_ok l ->
  (List.length (omap added_user l) <= List.length (omap task_id l))%nat.
Proof.
  induction 1 as [|t l Ht Hl IH]; simpl; [lia|].
  destruct (added_user t) as [u|] eqn:Ha.
  - rewrite (added_has_task_id t Ht Ha). simpl. lia.
  - destruct (task_id t); simpl; lia.
Qed.

(** X4. In every state a fresh manager reaches, the counter stands at one
    more than the number of creations that have drawn an identifier, modulo
    2^64, including those that threw afterwards; the store holds no more
    records than identifiers were drawn, and no more identifiers were drawn
    than creations were launched. *)
Theorem counter_accounting (config : list (string * string)) (evs : list event) :
  let s := run evs (system_new config) in
  next_id_ (manager s) =
    (1 + Z.of_nat (List.length (omap task_id (tasks s)))) mod uint64_modulus /\
  (List.length (users_ (manager s)) <= List.length (omap task_id (tasks s)))%nat /\
  (List.length (omap task_id (tasks s)) <= List.length (tasks s))%nat /\
  List.length (tasks s) = List.length (calls_of evs).
Proof.
  intros s. split; [|split; [|split]].
  - unfold s. rewrite next_id_after_run by (simpl; unfold uint64_modulus; lia).
    pose proof (run_ids evs (system_new config)) as Hp. simpl in Hp.
    apply Permutation_length in Hp. now rewrite Hp.
  - pose proof (store_is_added config evs) as Hp. fold s in Hp.
    apply Permutation_length in Hp. rewrite <- Hp.
    apply added_le_ids. apply tasks_ok.
  - apply omap_length.
  - unfold s. now rewrite tasks_length.
Qed.

(** ** Queries while the store grows *)

Lemma find_app_some {A} (p : A -> bool) (l l' : list A) (x : A) :
  find p l = Some x -> find p (l ++ l') = Some x.
Proof.
  induction l as [|y l IH]; simpl; [discriminate|].
  destruct (p y); auto.
Qed.

(** X5. What [findUserById] has once found it finds ever after: whatever
    creations are launched or proceed in between, the same identifier yields
    the same record. *)
Theorem findUserById_stable (s : system) (evs : list event) (id : Z) (u : User) :
  result (findUserById id) (manager s) = Some u ->
  result (findUserById id) (manager (run evs s)) = Some u.
Proof.
  unfold result. rewrite !findUserById_find. simpl. intros Hf.
  destruct (run_store evs s) as (new & -> & _).
  now apply find_app_some.
Qed.

Lemma findUserById_stable_witness :
  result (findUserById 1) (manager (run inflight_schedule (system_new []))) =
    Some (User_new 2 1 "Alice" "a@x.com" ADMIN) /\
  result (findUserById 1)
         (manager (run (one_call 1 "Bob" "b@x.com" None)
                       (run inflight_schedule (system_new [])))) =
    Some (User_new 2 1 "Alice" "a@x.com" ADMIN).
Proof.
  split; [reflexivity|].
  exact (@findUserById_stable (run inflight_schedule (system_new []))
           (one_call 1 "Bob" "b@x.com" None) 1
           (User_new 2 1 "Alice" "a@x.com" ADMIN) eq_refl).
Defined.

(** X6. The store only ever grows at its end, so what the filtering queries
    yield only grows at its end too: after any run, [getUsersByRole] and
    [getActiveUsers] yield what they yielded before, followed by the matching
    ones among the records inserted since, and [size] has grown by the number
    of those records. *)
Theorem queries_only_grow (s : system) (evs : list event) (role : UserRole) :
  exists new,
    users_ (manager (run evs s)) = users_ (manager s) ++ new /\
    result (getUsersByRole role) (manager (run evs s)) =
      result (getUsersByRole role) (manager s) ++
      filter (fun u => UserRole_eqb (role_ u) role) new /\
    result getActiveUsers (manager (run evs s)) =
      result getActiveUsers (manager s) ++ filter isActive new /\
    result (on_users size) (manager (run evs s)) =
      (result (on_users size) (manager s) + List.length new)%nat.
Proof.
  destruct (run_store evs s) as (new & Hu & _). exists new.
  unfold result, size.
  rewrite !getUsersByRole_filter, !getActiveUsers_filter, !on_users_reads.
  simpl. rewrite Hu, !filter_app, length_app. auto.
Qed.

(** ** Roles *)

Lemma roles_split (l : list User) :
  Permutation
    (filter (fun u => UserRole_eqb (role_ u) ADMIN) l ++
     filter (fun u => UserRole_eqb (role_ u) USER) l ++
     filter (fun u => UserRole_eqb (role_ u) GUEST) l) l.
Proof.
  induction l as [|u l IH]; simpl; [constructor|].
  destruct (role_ u); simpl.
  - now apply perm_skip.
  - apply Permutation_sym, Permutation_cons_app. now apply Permutation_sym.
  - apply Permutation_sym.
    rewrite app_assoc. apply Permutation_cons_app.
    rewrite <- app_assoc. now apply Permutation_sym.
Qed.

(** X7. The three roles partition the store: what [getUsersByRole] yields
    for [ADMIN], [USER] and [GUEST], put together, is the store up to order,
    the three lengths add up to [size()], and a record is yielded for a role
    exactly when it is stored and has that role. *)
Theorem roles_partition (m : UserManager) :
  Permutation
    (result (getUsersByRole ADMIN) m ++ result (getUsersByRole USER) m ++
     result (getUsersByRole GUEST) m)
    (users_ m) /\
  (List.length (result (getUsersByRole ADMIN) m) +
   List.length (result (getUsersByRole USER) m) +
   List.length (result (getUsersByRole GUEST) m))%nat =
    result (on_users size) m /\
  (forall role u,
     In u (result (getUsersByRole role) m) <->
     In u (users_ m) /\ role_ u = role).
Proof.
  split; [|split].
  - unfold result. rewrite !getUsersByRole_filter. apply roles_split.
  - unfold result, size. rewrite !getUsersByRole_filter, on_users_reads. simpl.
    pose proof (Permutation_length (roles_split (users_ m))) as Hl.
    rewrite !length_app in Hl. lia.
  - intros role u. unfold result. rewrite getUsersByRole_filter. simpl.
    rewrite filter_In, UserRole_eqb_eq. reflexivity.
Qed.

(** ** What the calls determine *)

Lemma Forall2_set_nth {A B} (R : A -> B -> Prop) (i : nat) (y y' : B)
    (l : list A) (l' : list B) :
  Forall2 R l l' -> nth_error l' i = Some y ->
  (forall x, R x y -> R x y') ->
  Forall2 R l (set_nth i y' l').
Proof.
  intros HF. revert i; induction HF as [|a b l l' Hab HF IH]; intros [|i];
    simpl; try discriminate.
  - intros [= ->] Hy. constructor; auto.
  - intros Hn Hy. constructor; auto.
Qed.

Lemma run_serves (evs : list event) :
  forall s reqs,
    Forall2 serves reqs (tasks s) ->
    Forall2 serves (reqs ++ calls_of evs) (tasks (run evs s)).
Proof.
  induction evs as [|ev evs IH]; intros s reqs Hs.
  - simpl. now rewrite app_nil_r.
  - rewrite run_cons. destruct ev as [name email role | who e].
    + simpl calls_of.
      change (reqs ++ mkRequest name email (role_or_default role) :: calls_of evs)
        with (reqs ++ [mkRequest name email (role_or_default role)] ++ calls_of evs).
      rewrite app_assoc. apply IH. simpl.
      apply Forall2_app; [exact Hs|]. constructor; [reflexivity | constructor].
    + simpl calls_of. apply IH.
      destruct (nth_error (tasks s) who) as [t|] eqn:Hn.
      * rewrite exec_Run with (t := t) by exact Hn. simpl.
        apply Forall2_set_nth with (y := t); [exact Hs | exact Hn |].
        intros r. apply task_step_serves.
      * now rewrite exec_Run_none.
Qed.

Lemma returned_requests (reqs : list request) (l : list task) :
  Forall2 serves reqs l -> forallb is_returned l = true ->
  map request_of_user (omap returned_user l) = reqs /\
  omap added_user l = omap returned_user l.
Proof.
  induction 1 as [|r t reqs l Hrt HF IH]; simpl; [auto|].
  destruct t; simpl; try discriminate. intros Hl.
  destruct (IH Hl) as [-> ->]. split; [|reflexivity]. f_equal.
  destruct r, Hrt as (? & ? & ? & _). unfold request_of_user. simpl in *.
  congruence.
Qed.

Lemma stored_requests (config : list (string * string)) (evs : list event) :
  forallb is_returned (tasks (run evs (system_new config))) = true ->
  Permutation (map request_of_user (users_ (manager (run evs (system_new config)))))
              (calls_of evs).
Proof.
  intros Hret.
  pose proof (@run_serves evs (system_new config) [] (Forall2_nil _)) as Hs.
  simpl in Hs. destruct (returned_requests Hs Hret) as [Hreq Hadd].
  pose proof (store_is_added config evs) as Hp. rewrite Hadd in Hp.
  rewrite <- Hreq. apply Permutation_map. now apply Permutation_sym.
Qed.

Lemma Permutation_filter_same {A} (p : A -> bool) (l l' : list A) :
  Permutation l l' -> Permutation (filter p l) (filter p l').
Proof.
  induction 1 as [|x l l' HP IH|x y l|l l' l'' H1 IH1 H2 IH2]; simpl.
  - constructor.
  - destruct (p x); [now apply perm_skip | exact IH].
  - destruct (p x), (p y); try reflexivity. apply perm_swap.
  - now transitivity (filter p l').
Qed.

Lemma filter_map_same {A B} (f : A -> B) (q : B -> bool) (l : list A) :
  map f (filter (fun x => q (f x)) l) = filter q (map f l).
Proof.
  induction l as [|x l IH]; simpl; [reflexivity|].
  destruct (q (f x)); simpl; now rewrite IH.
Qed.

Lemma admins_of_requests (l : list User) (reqs : list request) :
  Permutation (map request_of_user l) reqs ->
  Permutation
    (map request_of_user (filter (fun u => UserRole_eqb (role_ u) ADMIN) l))
    (filter (fun r => UserRole_eqb (rq_role r) ADMIN) reqs).
Proof.
  intros Hp.
  pose proof (filter_map_same request_of_user
                (fun r => UserRole_eqb (rq_role r) ADMIN) l) as E.
  simpl in E. rewrite E.
  now apply Permutation_filter_same.
Qed.

Lemma getStatistics_eq (m : UserManager) :
  getStatistics m =
  ({| total_users := List.length (users_ m);
      active_users := List.length (filter isActive (users_ m));
      admin_users :=
        List.length (filter (fun u => UserRole_eqb (role_ u) ADMIN) (users_ m));
      avg_users_per_day :=
        PrimFloat.div (double_of_size (List.length (users_ m))) 30%float |}, m).
Proof.
  unfold getStatistics, bind, size.
  now rewrite getActiveUsers_filter, getUsersByRole_filter, !on_users_reads.
Qed.

(** X8. Once every creation launched on a fresh manager has completed, the
    stored records are, up to order, the requests made (name, email and role,
    the role being [USER] where it was left out), and [getStatistics] reports
    the number of calls as total and as active, and the number of calls made
    for the role [ADMIN] as administrators. *)
Theorem statistics_of_calls (config : list (string * string)) (evs : list event) :
  let s := run evs (system_new config) in
  forallb is_returned (tasks s) = true ->
  Permutation (map request_of_user (users_ (manager s))) (calls_of evs) /\
  total_users (result getStatistics (manager s)) = List.length (calls_of evs) /\
  active_users (result getStatistics (manager s)) = List.length (calls_of evs) /\
  admin_users (result getStatistics (manager s)) =
    List.length (filter (fun r => UserRole_eqb (rq_role r) ADMIN) (calls_of evs)).
Proof.
  intros s Hret. pose proof (stored_requests config evs Hret) as Hp. fold s in Hp.
  assert (Htot : List.length (users_ (manager s)) = List.length (calls_of evs)).
  { apply Permutation_length in Hp. now rewrite length_map in Hp. }
  unfold result. rewrite getStatistics_eq. simpl.
  split; [exact Hp|]. split; [exact Htot|]. split.
  - rewrite filter_all; [exact Htot|].
    pose proof (tasks_ok config evs) as Hok. fold s in Hok.
    pose proof (store_is_added config evs) as Hs. fold s in Hs.
    apply Forall_forall. intros u Hu.
    apply Permutation_sym in Hs. apply (Permutation_in _ Hs) in Hu.
    apply omap_in in Hu. destruct Hu as (t & Ht & Ha).
    rewrite Forall_forall in Hok. specialize (Hok t Ht).
    unfold isActive.
    destruct t as [r|r id|v|v|v|id [v|]]; simpl in *; try discriminate;
      injection Ha as <-; [| |destruct Hok as [_ Hok]]; now rewrite Hok.
  - pose proof (admins_of_requests (users_ (manager s)) Hp) as Ha.
    apply Permutation_length in Ha. now rewrite length_map in Ha.
Qed.

Lemma statistics_of_calls_witness :
  let s := run main_schedule (system_new main_config) in
  forallb is_returned (tasks s) = true /\
  total_users (result getStatistics (manager s)) = 5%nat /\
  active_users (result getStatistics (manager s)) = 5%nat /\
  admin_users (result getStatistics (manager s)) = 1%nat.
Proof.
  destruct (statistics_of_calls main_config main_schedule eq_refl)
    as (_ & Ht & Ha & Hadm).
  split; [reflexivity|]. split; [exact Ht|]. split; [exact Ha | exact Hadm].
Defined.

(** ** The demonstration of [main] *)


Lemma stored_active (config : list (string * string)) (evs : list event) :
  filter isActive (users_ (manager (run evs (system_new config)))) =
  users_ (manager (run evs (system_new config))).
Proof.
  apply filter_all, Forall_forall. intros u Hu.
  pose proof (store_is_added config evs) as Hs.
  apply Permutation_sym in Hs. apply (Permutation_in _ Hs) in Hu.
  apply omap_in in Hu. destruct Hu as (t & Ht & Ha).
  pose proof (tasks_ok config evs) as Hok.
  rewrite Forall_forall in Hok. specialize (Hok t Ht). unfold isActive.
  destruct t as [r|r id|v|v|v|id [v|]]; simpl in *; try discriminate;
    injection Ha as <-; [| |destruct Hok as [_ Hok]]; now rewrite Hok.
Qed.





(** ** Strings *)

Lemma append_assoc (a b c : string) :
  ((a ++ b) ++ c = a ++ (b ++ c))%string.
Proof. induction a as [|x a IH]; simpl; [reflexivity | now rewrite IH]. Qed.

Lemma length_append (a b : string) :
  String.length (a ++ b) = (String.length a + String.length b)%nat.
Proof. induction a as [|x a IH]; simpl; [reflexivity | now rewrite IH]. Qed.

Lemma append_inj_l (p a b : string) : (p ++ a = p ++ b)%string -> a = b.
Proof. induction p as [|x p IH]; simpl; [auto | intros [= H]; auto]. Qed.

Lemma append_inj_r (a b t t' : string) :
  (a ++ t = b ++ t')%string -> String.length t = String.length t' ->
  a = b /\ t = t'.
Proof.
  revert b; induction a as [|x a IH]; intros [|y b]; simpl; intros He Hl.
  - auto.
  - exfalso. apply (f_equal String.length) in He. simpl in He.
    rewrite length_append in He. lia.
  - exfalso. apply (f_equal String.length) in He. simpl in He.
    rewrite length_append in He. lia.
  - injection He as -> He. destruct (IH b He Hl) as [-> ->]. auto.
Qed.

Lemma string_of_uint_digits (d : Decimal.uint) :
  all_digits (NilEmpty.string_of_uint d) = true.
Proof. induction d; simpl; auto. Qed.

Lemma to_string_digits (z : Z) : all_digits (to_string z) = true.
Proof.
  unfold to_string, NilZero.string_of_uint.
  destruct (N.to_uint (Z.to_N z)) eqn:E; try reflexivity;
    rewrite <- E; apply string_of_uint_digits.
Qed.

Lemma to_string_inj (a b : Z) :
  0 <= a -> 0 <= b -> to_string a = to_string b -> a = b.
Proof.
  intros Ha Hb He. unfold to_string in He.
  assert (Hnn : forall n, N.to_uint n <> Decimal.Nil).
  { intros [|p]; simpl; [discriminate | apply Unsigned.to_uint_nonnil]. }
  apply (f_equal NilZero.uint_of_string) in He.
  rewrite !NilZero.usu in He by apply Hnn.
  injection He as He. apply DecimalN.Unsigned.to_uint_inj in He.
  now apply Z2N.inj.
Qed.

Lemma digits_prefix_unique (d1 d2 r1 r2 : string) :
  all_digits d1 = true -> all_digits d2 = true ->
  (d1 ++ String "," r1 = d2 ++ String "," r2)%string -> d1 = d2.
Proof.
  revert d2; induction d1 as [|a d1 IH]; intros [|c d2]; simpl; intros H1 H2 He.
  - reflexivity.
  - injection He as <- _. discriminate.
  - injection He as -> _. discriminate.
  - injection He as -> He.
    apply andb_true_iff in H1, H2. f_equal. apply IH; tauto.
Qed.

(** ** [User::toString] *)

(** X10. [toString] shows the identifier and the role so that they can be
    read back: two users (with identifiers that are unsigned values) whose
    [toString] agree have the same identifier and the same role. *)
Theorem toString_determines_id_role (u v : User) :
  0 <= id_ u -> 0 <= id_ v ->
  toString u = toString v ->
  id_ u = id_ v /\ role_ u = role_ v.
Proof.
  intros Hu Hv He. unfold toString in He. split.
  - rewrite !append_assoc in He. apply append_inj_l in He.
    apply to_string_inj; [exact Hu | exact Hv |].
    apply digits_prefix_unique in He; [exact He | | ]; apply to_string_digits.
  - apply append_inj_r in He; [|reflexivity]. destruct He as [He _].
    apply append_inj_r in He.
    + destruct He as [_ He]. destruct (role_ u), (role_ v);
        try reflexivity; discriminate.
    + destruct (role_ u), (role_ v); reflexivity.
Qed.

Lemma toString_determines_id_role_witness :
  toString (User_new 7 42 "Al" "a@x" GUEST) =
  toString (mkUser 42 "Al" "a@x" GUEST SUSPENDED 9) /\
  id_ (User_new 7 42 "Al" "a@x" GUEST) = 42 /\
  role_ (User_new 7 42 "Al" "a@x" GUEST) = GUEST.
Proof.
  split; [reflexivity|].
  destruct (@toString_determines_id_role
              (User_new 7 42 "Al" "a@x" GUEST)
              (mkUser 42 "Al" "a@x" GUEST SUSPENDED 9)) as [Hid Hrole].
  - simpl. lia.
  - simpl. lia.
  - reflexivity.
  - split; [exact Hid | exact Hrole].
Defined.

(** X11. [toString] does not show where the name ends and the email begins:
    it puts both between plain quotes and escapes nothing, so a user whose
    name ends in the text that separates the two fields followed by [b], with
    email [c], prints exactly as the user with that name cut short and the
    email [b], separator, [c].  Status and creation time are not shown. *)
Theorem toString_ambiguous
    (id : Z) (a b c : string) (role : UserRole)
    (st st' : UserStatus) (t t' : Z) :
  toString (mkUser id (a ++ "', email='" ++ b) c role st t) =
  toString (mkUser id a (b ++ "', email='" ++ c) role st' t').
Proof.
  unfold toString. simpl id_. simpl name_. simpl email_. simpl role_.
  f_equal. f_equal. f_equal.
  rewrite !append_assoc. reflexivity.
Qed.

(** ** The comparison operators *)

(** X12. [operator==] and [operator<] compare identifiers only.  [operator==]
    is reflexive, symmetric and transitive, [operator<] is irreflexive and
    transitive, and of [a < b], [a == b], [b < a] exactly one holds; but
    [operator==] holds between users that differ in every other field. *)
Theorem operators_order (a b c : User) :
  operator_eq a a = true /\
  operator_eq a b = operator_eq b a /\
  (operator_eq a b = true -> operator_eq b c = true -> operator_eq a c = true) /\
  operator_lt a a = false /\
  (operator_lt a b = true -> operator_lt b c = true -> operator_lt a c = true) /\
  ((operator_lt a b = true /\ operator_eq a b = false /\ operator_lt b a = false) \/
   (operator_lt a b = false /\ operator_eq a b = true /\ operator_lt b a = false) \/
   (operator_lt a b = false /\ operator_eq a b = false /\ operator_lt b a = true)) /\
  (operator_eq a b = true <-> id_ a = id_ b) /\
  operator_eq (mkUser (id_ a) "x" "y" ADMIN ACTIVE 0)
              (mkUser (id_ a) "z" "w" GUEST SUSPENDED 1) = true.
Proof.
  unfold operator_eq, operator_lt. simpl.
  rewrite Z.eqb_refl, Z.ltb_irrefl, (Z.eqb_sym (id_ a) (id_ b)).
  repeat split; rewrite ?Z.eqb_eq, ?Z.ltb_lt in *; lia.
Qed.

(** ** The setters *)

Lemma call_setters_fields (cs : list setter) (u : User) :
  after (call_setters cs) u =
  {| id_ := id_ u;
     name_ := last_name cs (name_ u);
     email_ := last_email cs (email_ u);
     role_ := role_ u;
     status_ := last_status cs (status_ u);
     created_at_ := created_at_ u |}.
Proof.
  revert u; induction cs as [|c cs IH]; intros u.
  - destruct u; reflexivity.
  - unfold after in *. simpl. unfold bind.
    destruct c; simpl; rewrite IH; reflexivity.
Qed.

(** X13. No setter touches the identifier, the role or the creation time:
    after any sequence of calls of [setName], [setEmail] and [setStatus], a
    user has the identifier, role and creation time it had and still compares
    equal to what it was; its name, email and status are the arguments of the
    last call that set each (or what they were), and [isActive] tells whether
    that status is [ACTIVE]. *)
Theorem setters_keep_identity (cs : list setter) (u : User) :
  let u' := after (call_setters cs) u in
  id_ u' = id_ u /\ role_ u' = role_ u /\ created_at_ u' = created_at_ u /\
  operator_eq u' u = true /\
  name_ u' = last_name cs (name_ u) /\
  email_ u' = last_email cs (email_ u) /\
  status_ u' = last_status cs (status_ u) /\
  isActive u' = UserStatus_eqb (last_status cs (status_ u)) ACTIVE.
Proof.
  intros u'. unfold u'. rewrite call_setters_fields.
  unfold operator_eq, isActive. simpl. rewrite Z.eqb_refl. repeat split.
Qed.

(** ** Insertion followed by a query *)

Section InsertThenQuery.

Context {T : Type} `{Element T}.

(** X14. Insertion and the queries: after [addUser x], [findUser pred]
    yields what it yielded before, if anything, and otherwise [x] if [x]
    satisfies [pred]; [filterUsers pred] yields what it yielded before,
    followed by [x] if [x] satisfies [pred]; [size] is one more and [empty]
    is false.  On an empty collection [size] is 0 and the queries yield
    nothing. *)
Theorem addUser_then_query (pred : T -> bool) (x : T) (c : UserCollection T) :
  result (findUser pred) (after (addUser x) c) =
    match result (findUser pred) c with
    | Some y => Some y
    | None => if pred x then Some x else None
    end /\
  result (filterUsers pred) (after (addUser x) c) =
    result (filterUsers pred) c ++ (if pred x then [x] else []) /\
  result size (after (addUser x) c) = S (result size c) /\
  result empty (after (addUser x) c) = false /\
  result empty c = Nat.eqb (result size c) 0 /\
  result size ([] : UserCollection T) = 0%nat /\
  result (findUser pred) [] = None /\
  result (filterUsers pred) [] = [].
Proof.
  rewrite !findUser_find, !filterUsers_filter.
  unfold after, addUser, modify, push_back, result, size, empty, reads. simpl.
  rewrite copy_same, filter_app, length_app. simpl.
  split; [|split; [|split; [|split; [|split]]]]; auto.
  - induction c as [|y c IH]; simpl.
    + destruct (pred x); reflexivity.
    + destruct (pred y); [reflexivity | exact IH].
  - lia.
  - destruct c; reflexivity.
  - destruct c; reflexivity.
Qed.

End InsertThenQuery.

(** ** The configuration *)

Lemma task_step_config e t (m m' : UserManager) :
  users_ m = users_ m' -> next_id_ m = next_id_ m' ->
  result (task_step e t) m = result (task_step e t) m' /\
  users_ (after (task_step e t) m) = users_ (after (task_step e t) m') /\
  next_id_ (after (task_step e t) m) = next_id_ (after (task_step e t) m') /\
  config_ (after (task_step e t) m) = config_ m.
Proof.
  intros Hu Hn. step_cases e t m; rewrite ?Hu, ?Hn; auto.
Qed.

Lemma exec_config (ev : event) (s s' : system) :
  users_ (manager s) = users_ (manager s') ->
  next_id_ (manager s) = next_id_ (manager s') ->
  tasks s = tasks s' ->
  users_ (manager (exec ev s)) = users_ (manager (exec ev s')) /\
  next_id_ (manager (exec ev s)) = next_id_ (manager (exec ev s')) /\
  tasks (exec ev s) = tasks (exec ev s') /\
  config_ (manager (exec ev s)) = config_ (manager s).
Proof.
  intros Hu Hn Ht. destruct ev as [name email role | who e].
  - simpl. rewrite Ht. auto.
  - destruct (nth_error (tasks s) who) as [t|] eqn:Hw.
    + rewrite exec_Run with (t := t) by exact Hw.
      rewrite exec_Run with (s := s') (t := t) by (now rewrite <- Ht).
      simpl. destruct (task_step_config e t _ _ Hu Hn) as (-> & -> & -> & ->).
      rewrite Ht. auto.
    + rewrite exec_Run_none by exact Hw.
      rewrite exec_Run_none by (now rewrite <- Ht). auto.
Qed.

(** X15. The configuration map is kept and never looked at: every run leaves
    [config_] as the constructor stored it, and two managers constructed with
    different maps go through the same stores, counters and tasks under the
    same events, so every query answers the same on both. *)
Theorem config_is_inert
    (config config' : list (string * string)) (evs : list event) :
  let s := run evs (system_new config) in
  let s' := run evs (system_new config') in
  config_ (manager s) = config /\
  users_ (manager s) = users_ (manager s') /\
  next_id_ (manager s) = next_id_ (manager s') /\
  tasks s = tasks s' /\
  result getStatistics (manager s) = result getStatistics (manager s') /\
  (forall id, result (findUserById id) (manager s) =
              result (findUserById id) (manager s')) /\
  (forall role, result (getUsersByRole role) (manager s) =
                result (getUsersByRole role) (manager s')).
Proof.
  intros s s'.
  assert (Hinv : forall evs0 s0 s0',
            users_ (manager s0) = users_ (manager s0') ->
            next_id_ (manager s0) = next_id_ (manager s0') ->
            tasks s0 = tasks s0' ->
            users_ (manager (run evs0 s0)) = users_ (manager (run evs0 s0')) /\
            next_id_ (manager (run evs0 s0)) = next_id_ (manager (run evs0 s0')) /\
            tasks (run evs0 s0) = tasks (run evs0 s0') /\
            config_ (manager (run evs0 s0)) = config_ (manager s0)).
  { induction evs0 as [|ev evs0 IH]; intros s0 s0' Hu Hn Ht; [auto|].
    rewrite !run_cons.
    destruct (exec_config ev s0 s0' Hu Hn Ht) as (Hu1 & Hn1 & Ht1 & Hc1).
    destruct (IH _ _ Hu1 Hn1 Ht1) as (Hu2 & Hn2 & Ht2 & Hc2).
    rewrite Hc2, Hc1. auto. }
  destruct (Hinv evs (system_new config) (system_new config')
              eq_refl eq_refl eq_refl) as (Hu & Hn & Ht & Hc).
  fold s in Hu, Hn, Ht, Hc. fold s' in Hu, Hn, Ht.
  split; [exact Hc|]. split; [exact Hu|]. split; [exact Hn|].
  split; [exact Ht|]. unfold result. split; [|split].
  - rewrite !getStatistics_eq. simpl. now rewrite Hu.
  - intros id. rewrite !findUserById_find. simpl. now rewrite Hu.
  - intros role. rewrite !getUsersByRole_filter. simpl. now rewrite Hu.
Qed.

(** ** Creations one after the other *)

Lemma sequential_run (reqs : list asked) :
  forall s,
    users_ (manager (run (sequential (List.length (tasks s)) reqs) s)) =
      users_ (manager s) ++ records_from (next_id_ (manager s)) reqs /\
    (forallb is_returned (tasks s) = true ->
     forallb is_returned
       (tasks (run (sequential (List.length (tasks s)) reqs) s)) = true).
Proof.
  induction reqs as [|[[name email] role] reqs IH]; intros s.
  - simpl. rewrite app_nil_r. auto.
  - change (sequential (List.length (tasks s)) ((name, email, role) :: reqs))
      with (one_call (List.length (tasks s)) name email role ++
            sequential (S (List.length (tasks s))) reqs).
    rewrite run_app, one_call_alone. cbv zeta.
    match goal with |- context [run (sequential (S ?k) reqs) ?s1] =>
      destruct (IH s1) as [IHu IHr];
      replace (S k) with (List.length (tasks s1))
        by (simpl; rewrite length_app; simpl; lia)
    end.
    split.
    + rewrite IHu. simpl. now rewrite <- app_assoc.
    + intros Hret. apply IHr. simpl. now rewrite forallb_snoc, Hret.
Qed.

Lemma records_from_ids (reqs : list asked) :
  forall c,
    0 <= c -> c + Z.of_nat (List.length reqs) <= uint64_modulus ->
    map id_ (records_from c reqs) =
    map (fun j => c + Z.of_nat j) (seq 0 (List.length reqs)).
Proof.
  induction reqs as [|[[name email] role] reqs IH]; intros c Hc Hn;
    [reflexivity|].
  simpl List.length in *. simpl. rewrite Z.add_0_r. f_equal.
  rewrite <- seq_shift, map_map.
  destruct reqs as [|a reqs']; [reflexivity|].
  rewrite Z.mod_small by (simpl List.length in Hn; lia).
  rewrite IH by (simpl List.length in *; lia).
  apply map_ext. intros j. lia.
Qed.

Lemma records_from_requests (reqs : list asked) (c : Z) :
  map request_of_user (records_from c reqs) = map request_of_asked reqs.
Proof.
  revert c; induction reqs as [|[[name email] role] reqs IH]; intros c;
    [reflexivity|].
  simpl. now rewrite IH.
Qed.

(** X16. When creations on a fresh manager are made one after the other,
    each completed before the next is launched, and fewer than 2^64 of them,
    the store holds their records in the order of the calls, with the
    identifiers 1, 2, ... in that order, hence sorted by [operator<]; and all
    futures have resolved. *)
Theorem sequential_store_in_order
    (config : list (string * string)) (reqs : list asked) :
  let s := run (sequential 0 reqs) (system_new config) in
  Z.of_nat (List.length reqs) < uint64_modulus ->
  map request_of_user (users_ (manager s)) = map request_of_asked reqs /\
  map id_ (users_ (manager s)) = ids_upto (List.length reqs) /\
  StronglySorted (fun a b => operator_lt a b = true) (users_ (manager s)) /\
  forallb is_returned (tasks s) = true.
Proof.
  intros s Hn.
  destruct (sequential_run reqs (system_new config)) as [Hu Hr].
  simpl in Hu, Hr. fold s in Hu, Hr.
  assert (Hids : map id_ (users_ (manager s)) = ids_upto (List.length reqs)).
  { rewrite Hu, records_from_ids by lia. now rewrite ids_upto_shift. }
  split; [rewrite Hu; apply records_from_requests|].
  split; [exact Hids|]. split; [|now apply Hr].
  pose proof (ids_upto_sorted (List.length reqs)) as Hs. rewrite <- Hids in Hs.
  clear -Hs. induction (users_ (manager s)) as [|u l IH]; [constructor|].
  simpl in Hs. inversion Hs as [|? ? Hl Hu]; subst. constructor; [auto|].
  rewrite Forall_forall in *. intros v Hv. unfold operator_lt.
  apply Z.ltb_lt. apply Hu. now apply in_map.
Qed.

Lemma sequential_store_in_order_witness :
  let reqs := [("Alice", "a@x.com", Some ADMIN); ("Bob", "b@x.com", None)]%string in
  let s := run (sequential 0 reqs) (system_new []) in
  Z.of_nat (List.length reqs) < uint64_modulus /\
  map name_ (users_ (manager s)) = ["Alice"; "Bob"]%string /\
  map id_ (users_ (manager s)) = [1; 2].
Proof.
  split; [vm_compute; reflexivity|]. split; [reflexivity|].
  refine (proj1 (proj2 (@sequential_store_in_order []
            [("Alice", "a@x.com", Some ADMIN); ("Bob", "b@x.com", None)]%string
            _))).
  vm_compute. reflexivity.
Defined.

Lemma records_from_length (reqs : list asked) (c : Z) :
  List.length (records_from c reqs) = List.length reqs.
Proof.
  revert c; induction reqs as [|[[name email] role] reqs IH]; intros c;
    [reflexivity|].
  simpl. now rewrite IH.
Qed.

(** X17. [MAX_USERS] is never consulted: up to [MAX_USERS + 1] creations
    made one after the other on a fresh manager all complete and leave
    [size()] at their number, so the store comes to hold more than
    [MAX_USERS] records. *)
Theorem max_users_not_enforced
    (config : list (string * string)) (reqs : list asked) :
  let s := run (sequential 0 reqs) (system_new config) in
  Z.of_nat (List.length reqs) <= MAX_USERS + 1 ->
  result (on_users size) (manager s) = List.length reqs /\
  forallb is_returned (tasks s) = true /\
  (Z.of_nat (List.length reqs) = MAX_USERS + 1 ->
   Z.of_nat (result (on_users size) (manager s)) > MAX_USERS).
Proof.
  intros s _.
  destruct (sequential_run reqs (system_new config)) as [Hu Hr].
  simpl in Hu, Hr. fold s in Hu, Hr.
  assert (Hsize : result (on_users size) (manager s) = List.length reqs).
  { unfold result, size. rewrite on_users_reads. simpl.
    rewrite Hu. apply records_from_length. }
  split; [exact Hsize|]. split; [now apply Hr|].
  rewrite Hsize. lia.
Qed.

Lemma max_users_not_enforced_witness :
  let reqs := repeat ("u", "u@x", None)%string 1001 in
  let s := run (sequential 0 reqs) (system_new []) in
  Z.of_nat (List.length reqs) <= MAX_USERS + 1 /\
  result (on_users size) (manager s) = 1001%nat /\
  Z.of_nat (result (on_users size) (manager s)) > MAX_USERS.
Proof.
  intros reqs s.
  assert (Hlen : List.length reqs = 1001%nat) by apply repeat_length.
  assert (Hn : Z.of_nat (List.length reqs) <= MAX_USERS + 1)
    by (rewrite Hlen; vm_compute; discriminate).
  destruct (@max_users_not_enforced [] reqs Hn) as (Hsize & _ & Hmore).
  fold s in Hsize, Hmore. split; [exact Hn|]. split.
  - now rewrite Hsize.
  - apply Hmore. try unfold reqs. rewrite repeat_length. reflexivity.
Defined.

(** ** Identifiers of a settled manager *)

Lemma added_is_returned (l : list task) :
  forallb is_returned l = true -> omap added_user l = omap returned_user l.
Proof.
  induction l as [|t l IH]; simpl; [reflexivity|].
  destruct t; simpl; try discriminate. intros Hl. now rewrite IH.
Qed.

Lemma settled_store_size (config : list (string * string)) (evs : list event) :
  forallb is_returned (tasks (run evs (system_new config))) = true ->
  List.length (users_ (manager (run evs (system_new config)))) =
  List.length (tasks (run evs (system_new config))).
Proof.
  intros Hret. pose proof (store_is_added config evs) as Hp.
  apply Permutation_length in Hp. rewrite <- Hp, (added_is_returned _ Hret).
  now apply omap_task_id_returned.
Qed.

(** C1 (amended). When every creation launched on a fresh manager has
    completed (none is pending, none has thrown), [n] of them, then the
    identifiers were drawn in the order 1, 2, ..., [n] (strictly increasing,
    none drawn twice), and the identifiers of the created records, as those
    of the stored records, are exactly these, in some order, without
    repetition.  The records are held in one vector, whose [size()] is below
    2^64. *)
Theorem createUser_ids (config : list (string * string)) (evs : list event) :
  let s := run evs (system_new config) in
  let n := List.length (tasks s) in
  forallb is_returned (tasks s) = true ->
  Z.of_nat (result (on_users size) (manager s)) < uint64_modulus ->
  result (on_users size) (manager s) = n /\
  issue_log evs (system_new config) = ids_upto n /\
  StronglySorted Z.lt (issue_log evs (system_new config)) /\
  Permutation (assigned_ids s) (ids_upto n) /\
  NoDup (assigned_ids s) /\
  (forall id, In id (assigned_ids s) <-> 1 <= id <= Z.of_nat n) /\
  Permutation (map id_ (users_ (manager s))) (ids_upto n).
Proof.
  intros s n Hret Hsize.
  assert (Hn : result (on_users size) (manager s) = n).
  { unfold result, size. rewrite on_users_reads. simpl.
    now apply settled_store_size. }
  rewrite Hn in Hsize. split; [exact Hn|].
  destruct (assigned_ids_log config evs Hret) as [Hp Hlen].
  fold s in Hp, Hlen. fold n in Hlen.
  assert (Hlog : issue_log evs (system_new config) = ids_upto n).
  { rewrite issue_log_new, Hlen, ids_upto_shift.
    apply map_ext_in. intros j Hj. apply in_seq in Hj.
    apply Z.mod_small. lia. }
  rewrite Hlog in *.
  split; [reflexivity|]. split; [apply ids_upto_sorted|].
  split; [exact Hp|]. split; [|split].
  - apply Permutation_sym in Hp.
    exact (Permutation_NoDup Hp (ids_upto_NoDup n)).
  - intros id. rewrite <- ids_upto_in. split; intros Hin.
    + exact (Permutation_in _ Hp Hin).
    + apply Permutation_sym in Hp. exact (Permutation_in _ Hp Hin).
  - rewrite <- Hp. unfold assigned_ids.
    rewrite <- (added_is_returned _ Hret).
    apply Permutation_map, Permutation_sym. apply store_is_added.
Qed.

Lemma createUser_ids_witness :
  let s := run main_schedule (system_new []) in
  forallb is_returned (tasks s) = true /\
  Z.of_nat (result (on_users size) (manager s)) < uint64_modulus /\
  issue_log main_schedule (system_new []) = ids_upto 5 /\
  assigned_ids s = [2; 4; 1; 5; 3] /\
  Permutation (assigned_ids s) (ids_upto 5).
Proof.
  assert (Hret : forallb is_returned
                   (tasks (run main_schedule (system_new []))) = true)
    by reflexivity.
  assert (Hn : Z.of_nat (result (on_users size)
                           (manager (run main_schedule (system_new []))))
               < uint64_modulus)
    by (vm_compute; reflexivity).
  pose proof (createUser_ids [] main_schedule Hret Hn) as (_ & Hlog & _ & Hp & _).
  split; [exact Hret|]. split; [exact Hn|]. split; [exact Hlog|].
  split; [reflexivity | exact Hp].
Defined.

(** The claim C1 as written fails: the construction of the first creation
    throws after it has drawn the identifier 1, and the one creation that
    completes carries the identifier 2. *)
Lemma createUser_ids_gap :
  tasks (run gap_schedule (system_new [])) =
    [Threw 1 None; Returned (User_new 4 2 "Bob" "b@x.com" USER)] /\
  List.length (omap returned_user (tasks (run gap_schedule (system_new [])))) =
    1%nat /\
  assigned_ids (run gap_schedule (system_new [])) = [2] /\
  map id_ (users_ (manager (run gap_schedule (system_new [])))) = [2] /\
  ids_upto 1 = [1].
Proof. repeat split. Qed.

(** ** [getStatistics] while creations proceed *)

Lemma on_manager_pure {A} (c : Op UserManager A) (f : UserManager -> A)
    (s : system) :
  (forall m, c m = (f m, m)) -> on_manager c s = (f (manager s), s).
Proof. intros Hc. unfold on_manager. rewrite Hc. now destruct s. Qed.

Lemma getStatistics_amid_eq (evs1 evs2 evs3 : list event) (s : system) :
  getStatistics_amid evs1 evs2 evs3 s =
  ({| total_users := List.length (users_ (manager (run evs2 (run evs1 s))));
      active_users := List.length (filter isActive (users_ (manager s)));
      admin_users :=
        List.length (filter (fun u => UserRole_eqb (role_ u) ADMIN)
                            (users_ (manager (run evs1 s))));
      avg_users_per_day :=
        PrimFloat.div
          (double_of_size
             (List.length
                (users_ (manager (run evs3 (run evs2 (run evs1 s)))))))
          30%float |},
   run evs3 (run evs2 (run evs1 s))).
Proof.
  unfold getStatistics_amid, bind, proceed, modify, ret.
  rewrite (on_manager_pure getActiveUsers
             (fun m => filter isActive (users_ m)) s getActiveUsers_filter).
  rewrite (on_manager_pure (getUsersByRole ADMIN)
             (fun m => filter (fun u => UserRole_eqb (role_ u) ADMIN) (users_ m))
             (run evs1 s) (getUsersByRole_filter ADMIN)).
  rewrite (on_manager_pure (on_users size)
             (fun m => List.length (users_ m))
             (run evs2 (run evs1 s)) (on_users_reads _)).
  rewrite (on_manager_pure (on_users size)
             (fun m => List.length (users_ m))
             (run evs3 (run evs2 (run evs1 s))) (on_users_reads _)).
  reflexivity.
Qed.

(** The quotient that [getStatistics] computes from a size [n] below 2^63 is
    the binary64 division, by the binary64 number 30, of [n] rounded to
    binary64. *)
Lemma size_over_30 (n : nat) :
  Z.of_nat n < 2 ^ 63 ->
  Prim2SF (PrimFloat.div (double_of_size n) 30%float) =
  SF64div (binary_normalize prec emax (Z.of_nat n) 0 false)
          (Prim2SF 30%float).
Proof.
  intros Hn. unfold double_of_size.
  rewrite FloatAxioms.div_spec, FloatAxioms.of_uint63_spec, Uint63.of_Z_spec.
  rewrite Z.mod_small; [reflexivity|].
  change Uint63.wB with (2 ^ 63). lia.
Qed.

Lemma store_growth (evs1 evs2 evs3 : list event) (s : system) :
  exists n1 n2 n3,
    users_ (manager (run evs1 s)) = users_ (manager s) ++ n1 /\
    users_ (manager (run evs2 (run evs1 s))) = users_ (manager s) ++ n1 ++ n2 /\
    users_ (manager (run evs3 (run evs2 (run evs1 s)))) =
      users_ (manager s) ++ n1 ++ n2 ++ n3.
Proof.
  destruct (run_store evs1 s) as (n1 & H1 & _).
  destruct (run_store evs2 (run evs1 s)) as (n2 & H2 & _).
  destruct (run_store evs3 (run evs2 (run evs1 s))) as (n3 & H3 & _).
  exists n1, n2, n3. rewrite H3, H2, H1, <- !app_assoc. auto.
Qed.

(** C3 (amended). [getStatistics] reads the store four times, each time under
    a lock of its own, and the tasks may insert in between.  It reports as
    [active_users] the number of [ACTIVE] records at its first read, as
    [admin_users] the number of [ADMIN] records at its second read, as
    [total_users] what [size()] yields at its third read, and as
    [avg_users_per_day] what [size()] yields at its fourth read, rounded to
    [double] (exactly, below 2^53) and divided by the [double] 30.0.  When
    nothing is inserted between the first read and the last, all four are
    taken on one store: the total is its [size()], the counts are those of its
    [ACTIVE] and of its [ADMIN] records, and the average is the total divided
    by 30.0.  The manager is not changed by the reads. *)
Theorem getStatistics_four_reads
    (s : system) (evs1 evs2 evs3 : list event) :
  let s1 := run evs1 s in
  let s2 := run evs2 s1 in
  let s3 := run evs3 s2 in
  let st := result (getStatistics_amid evs1 evs2 evs3) s in
  Z.of_nat (List.length (users_ (manager s3))) < 2 ^ 63 ->
  active_users st =
    List.length (filter (fun u => UserStatus_eqb (status_ u) ACTIVE)
                        (users_ (manager s))) /\
  admin_users st =
    List.length (filter (fun u => UserRole_eqb (role_ u) ADMIN)
                        (users_ (manager s1))) /\
  total_users st = result (on_users size) (manager s2) /\
  total_users st = List.length (users_ (manager s2)) /\
  avg_users_per_day st =
    PrimFloat.div
      (PrimFloat.of_uint63
         (Uint63.of_Z (Z.of_nat (List.length (users_ (manager s3))))))
      30%float /\
  Prim2SF (avg_users_per_day st) =
    SF64div (binary_normalize prec emax
               (Z.of_nat (List.length (users_ (manager s3)))) 0 false)
            (Prim2SF 30%float) /\
  after (getStatistics_amid evs1 evs2 evs3) s = s3 /\
  (users_ (manager s3) = users_ (manager s) ->
   total_users st = List.length (users_ (manager s)) /\
   total_users st = result (on_users size) (manager s) /\
   admin_users st =
     List.length (filter (fun u => UserRole_eqb (role_ u) ADMIN)
                         (users_ (manager s))) /\
   avg_users_per_day st =
     PrimFloat.div
       (PrimFloat.of_uint63 (Uint63.of_Z (Z.of_nat (total_users st))))
       30%float /\
   Prim2SF (avg_users_per_day st) =
     SF64div (binary_normalize prec emax (Z.of_nat (total_users st)) 0 false)
             (Prim2SF 30%float)) /\
  getStatistics_amid [] [] [] s = on_manager getStatistics s.
Proof.
  intros s1 s2 s3 st Hsize. subst st s3 s2 s1. unfold result, after.
  rewrite getStatistics_amid_eq.
  cbn [fst snd total_users active_users admin_users avg_users_per_day].
  assert (Hsz : forall m, fst (on_users size m) = List.length (users_ m)).
  { intros m. unfold size. now rewrite on_users_reads. }
  rewrite !Hsz.
  split; [reflexivity|]. split; [reflexivity|]. split; [reflexivity|].
  split; [reflexivity|]. split; [reflexivity|].
  split; [now apply size_over_30|]. split; [reflexivity|]. split.
  - intros Hsame.
    destruct (store_growth evs1 evs2 evs3 s) as (n1 & n2 & n3 & H1 & H2 & H3).
    rewrite H3 in Hsame.
    rewrite <- (app_nil_r (users_ (manager s))) in Hsame at 2.
    apply app_inv_head in Hsame.
    apply app_eq_nil in Hsame. destruct Hsame as [-> Hsame].
    apply app_eq_nil in Hsame. destruct Hsame as [-> ->].
    rewrite !app_nil_r in *. rewrite H3 in Hsize. rewrite H3, H2, H1.
    split; [reflexivity|]. split; [reflexivity|].
    split; [reflexivity|]. split; [reflexivity|].
    now apply size_over_30.
  - rewrite getStatistics_amid_eq.
    rewrite (on_manager_pure getStatistics _ s getStatistics_eq).
    reflexivity.
Qed.

Lemma getStatistics_four_reads_witness :
  let s := run built_schedule (system_new []) in
  let evs1 := [Run 0 (tick 3)] in
  let st := result (getStatistics_amid evs1 [] []) s in
  Z.of_nat (List.length (users_ (manager (run evs1 s)))) < 2 ^ 63 /\
  active_users st = 0%nat /\ admin_users st = 1%nat /\ total_users st = 1%nat /\
  Prim2SF (avg_users_per_day st) =
    SF64div (binary_normalize prec emax 1 0 false) (Prim2SF 30%float).
Proof.
  intros s evs1 st.
  assert (Hn : Z.of_nat (List.length (users_ (manager (run evs1 s)))) < 2 ^ 63)
    by (vm_compute; reflexivity).
  destruct (@getStatistics_four_reads s evs1 [] [] Hn)
    as (Ha & Hadm & _ & Ht & _ & Hspec & _).
  split; [exact Hn|]. split; [exact Ha|]. split; [exact Hadm|].
  split; [exact Ht | exact Hspec].
Defined.

(** The claim C3 as written fails: a task inserts its record between the two
    calls of [size()], and the average is not the total divided by 30.0. *)
Lemma getStatistics_torn :
  let s := run built_schedule (system_new []) in
  let st := result (getStatistics_amid [] [] [Run 0 (tick 3)]) s in
  total_users st = 0%nat /\
  avg_users_per_day st = PrimFloat.div 1%float 30%float /\
  PrimFloat.eqb (avg_users_per_day st) (PrimFloat.div 0%float 30%float) = false /\
  tasks s = [Built (User_new 2 1 "Alice" "a@x.com" ADMIN)].
Proof. vm_compute. repeat split. Qed.

(** X3. In every state a fresh manager reaches, every stored record has the
    status [ACTIVE]: nothing the manager does changes the status of a stored
    record.  So [getActiveUsers] yields the whole store; and [getStatistics],
    whatever the tasks do between its reads, reports as active users the size
    of the store at its first read, which is at most the total it reports,
    and equal to it when nothing is inserted between the first read and the
    third. *)
Theorem stored_all_active
    (config : list (string * string)) (evs evs1 evs2 evs3 : list event) :
  let s := run evs (system_new config) in
  let st := result (getStatistics_amid evs1 evs2 evs3) s in
  Forall (fun u => status_ u = ACTIVE) (users_ (manager s)) /\
  result getActiveUsers (manager s) = users_ (manager s) /\
  active_users st = List.length (users_ (manager s)) /\
  (active_users st <= total_users st)%nat /\
  (users_ (manager (run evs2 (run evs1 s))) = users_ (manager s) ->
   active_users st = total_users st).
Proof.
  intros s st.
  pose proof (stored_active config evs) as Hact. fold s in Hact.
  assert (Hall : Forall (fun u => status_ u = ACTIVE) (users_ (manager s))).
  { apply Forall_forall. intros u Hu. rewrite <- Hact in Hu.
    apply filter_In in Hu. destruct Hu as [_ Hu].
    unfold isActive in Hu. now apply UserStatus_eqb_eq in Hu. }
  split; [exact Hall|]. split.
  { unfold result. now rewrite getActiveUsers_filter. }
  unfold st, result. rewrite getStatistics_amid_eq. simpl. rewrite Hact.
  split; [reflexivity|].
  destruct (store_growth evs1 evs2 evs3 s) as (n1 & n2 & n3 & _ & H2 & _).
  split.
  - rewrite H2, length_app. lia.
  - intros Hsame. now rewrite Hsame.
Qed.
